(** * Siriz apartment walkthrough: scroll-driven camera choreography

    A shallow embedding of [src/App.tsx]: the camera path table, the room
    label selection of the scroll callback, the tweens that the [forEach]
    over [CAMERA_PATH] places on the timeline, the resize handler, the
    render loop and its teardown, the opacity ranges of the overlay
    sections and the procedural scene construction.

    Numbers.  JavaScript numbers are modelled as exact rationals ([Q]);
    equalities between computed coordinates are stated with [==].  Angles
    are kept as rational multiples of pi. *)

From Stdlib Require Import QArith Qabs Qminmax Lqa Lia List String ZArith Bool.
From Stdlib Require Import Setoid Morphisms.
Import ListNotations.
Open Scope Q_scope.

(** ** Comparisons as the source writes them *)

(** [a < b] as a JavaScript test. *)
Definition Qltb (a b : Q) : bool := negb (Qle_bool b a).

(** ** Data of the tour *)

Record Vec3 : Type := mkVec3 { x : Q; y : Q; z : Q }.

(** One entry of [CAMERA_PATH]: [{ pos, look, scroll }]. *)
Record Keyframe : Type := mkKeyframe { pos : Vec3; look : Vec3; scroll : Q }.

Definition ROOM_NAMES : list string :=
  [ "The Grand Foyer"; "The Living Room"; "The Master Suite";
    "The Modular Kitchen"; "The Private Study" ]%string.

Definition CAMERA_PATH : list Keyframe :=
  [ mkKeyframe (mkVec3 0 1.6 12) (mkVec3 0 1.6 0) 0;
    mkKeyframe (mkVec3 0 1.6 6) (mkVec3 0 1.6 0) 0.15;
    mkKeyframe (mkVec3 0 1.6 0) (mkVec3 (-4) 1.6 (-2)) 0.25;
    mkKeyframe (mkVec3 (-4) 1.6 (-2)) (mkVec3 (-8) 1.6 (-2)) 0.35;
    mkKeyframe (mkVec3 (-8) 1.6 (-2)) (mkVec3 (-8) 1.6 (-8)) 0.45;
    mkKeyframe (mkVec3 (-8) 1.6 (-8)) (mkVec3 (-4) 1.6 (-10)) 0.55;
    mkKeyframe (mkVec3 (-4) 1.6 (-10)) (mkVec3 (-4) 1.6 (-14)) 0.65;
    mkKeyframe (mkVec3 (-4) 1.6 (-14)) (mkVec3 (-4) 1.6 (-18)) 0.75;
    mkKeyframe (mkVec3 (-4) 1.6 (-18)) (mkVec3 (-4) 1.6 (-22)) 0.85;
    mkKeyframe (mkVec3 (-4) 1.6 (-22)) (mkVec3 0 1.6 (-22)) 1.0 ].

(** ** Room label of the scroll callback

    The [if / else if] chain of [onUpdate]; the index is the one used to
    read [ROOM_NAMES]. *)
Definition room_index (progress : Q) : nat :=
  if Qltb progress 0.2 then 0%nat
  else if Qltb progress 0.4 then 1%nat
  else if Qltb progress 0.6 then 2%nat
  else if Qltb progress 0.8 then 3%nat
  else 4%nat.

(** [ROOM_NAMES[i]]; [None] stands for [undefined]. *)
Definition room_label (progress : Q) : option string :=
  nth_error ROOM_NAMES (room_index progress).

(** ** The CameraPath invariant, as decidable checks *)

Fixpoint strictly_increasing_from (prev : Q) (ts : list Q) : bool :=
  match ts with
  | [] => true
  | t :: ts' => Qltb prev t && strictly_increasing_from t ts'
  end.

Definition strictly_increasing (ts : list Q) : bool :=
  match ts with
  | [] => true
  | t :: ts' => strictly_increasing_from t ts'
  end.

Definition scrolls (path : list Keyframe) : list Q := map scroll path.

Definition first_scroll (path : list Keyframe) : option Q := hd_error (scrolls path).

Definition last_scroll (path : list Keyframe) : option Q :=
  hd_error (rev (scrolls path)).

(** The CameraPath invariant of the data model: at least two keyframes,
    scroll values strictly increasing, the first one 0 and the last one 1. *)
Definition Qeq_opt (o : option Q) (q : Q) : bool :=
  match o with Some v => Qeq_bool v q | None => false end.

Definition camera_path_ok (path : list Keyframe) : bool :=
  (2 <=? List.length path)%nat
  && strictly_increasing (scrolls path)
  && Qeq_opt (first_scroll path) 0
  && Qeq_opt (last_scroll path) 1.

(** ** Vectors and poses up to equality of rationals *)

Definition Vec3_eq (a b : Vec3) : Prop :=
  x a == x b /\ y a == y b /\ z a == z b.

Infix "=v=" := Vec3_eq (at level 70, no associativity).

(** What a camera pose consists of: where the camera is and the point it is
    aimed at.  The orientation is derived from the two by [camera.lookAt]. *)
Record Pose : Type := mkPose { position : Vec3; lookAt : Vec3 }.

Definition Pose_eq (a b : Pose) : Prop :=
  position a =v= position b /\ lookAt a =v= lookAt b.

Infix "=p=" := Pose_eq (at level 70, no associativity).

Definition pose_of (k : Keyframe) : Pose := mkPose (pos k) (look k).

(** ** Linear tweens

    [ease: 'none']: a tweened property moves from its start value [a] to
    its end value [b] as [a + (b - a) * ratio]. *)
Definition lerp (a b u : Q) : Q := a + (b - a) * u.

Definition lerp3 (a b : Vec3) (u : Q) : Vec3 :=
  mkVec3 (lerp (x a) (x b) u) (lerp (y a) (y b) u) (lerp (z a) (z b) u).

Definition lerp_pose (a b : Keyframe) (u : Q) : Pose :=
  mkPose (lerp3 (pos a) (pos b) u) (lerp3 (look a) (look b) u).

(** [v < lo ? lo : v > hi ? hi : v] *)
Definition clamp (lo hi v : Q) : Q :=
  if Qltb v lo then lo else if Qltb hi v then hi else v.

(** ** The timeline built by the [forEach] over the camera path

    Each keyframe after the first adds two tweens at timeline position
    [prev.scroll], both of duration [point.scroll - prev.scroll]: one on
    [camera.position], one on a fresh [lookObj] initialised to [prev.look]
    whose [onUpdate] calls [camera.lookAt(lookObj)]. *)
Inductive TweenTarget : Type :=
| CameraPosition
| LookObj (initial : Vec3).

Record Tween : Type := mkTween {
  target : TweenTarget;
  dest : Vec3;
  duration : Q;
  startTime : Q
}.

Definition position_tween (prev point : Keyframe) : Tween :=
  mkTween CameraPosition (pos point) (scroll point - scroll prev) (scroll prev).

Definition lookAt_tween (prev point : Keyframe) : Tween :=
  mkTween (LookObj (look prev)) (look point) (scroll point - scroll prev) (scroll prev).

Fixpoint path_tweens (prev : Keyframe) (points : list Keyframe) : list Tween :=
  match points with
  | [] => []
  | point :: points' =>
      position_tween prev point :: lookAt_tween prev point
        :: path_tweens point points'
  end.

Definition tweens_of_path (path : list Keyframe) : list Tween :=
  match path with
  | [] => []
  | first :: points => path_tweens first points
  end.

(** ** Rendering a timeline

    The animation library is not part of the repository; this is its
    documented behaviour for the calls the source makes.  A [to] tween
    records the start values of its target the first time it is rendered
    and from then on writes [start + (dest - start) * ratio], the ratio
    being the tween's local time over its duration, held in [0, 1].  A
    timeline moving its playhead forward renders its children first to
    last, those whose start the playhead has reached; moving backward it
    renders them last to first, those whose end the playhead has not
    passed.  A tween never reached by the playhead is left alone, and a
    timeline whose playhead is asked to go where it already is renders
    nothing. *)
Record Child : Type := mkChild { tween : Tween; startValues : option Vec3 }.

(** The camera object the tweens act on: [current] holds its position and
    the point the last [camera.lookAt] call aimed it at, [aimed_from] the
    position it had at that call.  [lookAt] turns the camera to look from
    where it is towards the point; nothing turns it again when its position
    is written afterwards, so the orientation the camera has is the one of
    looking from [aimed_from] towards the look target. *)
Record CameraState : Type := mkCameraState { current : Pose; aimed_from : Vec3 }.

Definition tween_end (tw : Tween) : Q := startTime tw + duration tw.

Definition ratio_at (tw : Tween) (t : Q) : Q :=
  if Qle_bool (duration tw) 0 then 1
  else clamp 0 1 ((t - startTime tw) / duration tw).

(** Value read from the tweened object when the tween initialises. *)
Definition read_target (tw : Tween) (cam : CameraState) : Vec3 :=
  match target tw with
  | CameraPosition => position (current cam)
  | LookObj initial => initial
  end.

(** Writing the tweened object.  Writing [camera.position] moves the camera
    and leaves its orientation alone; for a [lookObj] the [onUpdate]
    callback calls [camera.lookAt] with it, which aims the camera from the
    position it has at that moment. *)
Definition write_target (tw : Tween) (v : Vec3) (cam : CameraState) : CameraState :=
  match target tw with
  | CameraPosition => mkCameraState (mkPose v (lookAt (current cam))) (aimed_from cam)
  | LookObj _ =>
      mkCameraState (mkPose (position (current cam)) v) (position (current cam))
  end.

Definition render_child (t : Q) (c : Child) (cam : CameraState)
  : Child * CameraState :=
  let tw := tween c in
  let apply (s : Vec3) :=
    (mkChild tw (Some s), write_target tw (lerp3 s (dest tw) (ratio_at tw t)) cam) in
  match startValues c with
  | Some s => apply s
  | None => if Qltb t (startTime tw) then (c, cam) else apply (read_target tw cam)
  end.

Fixpoint render_forward (t : Q) (cs : list Child) (cam : CameraState)
  : list Child * CameraState :=
  match cs with
  | [] => ([], cam)
  | c :: cs' =>
      let '(c', cam') :=
        if Qle_bool (startTime (tween c)) t then render_child t c cam else (c, cam) in
      let '(cs'', cam'') := render_forward t cs' cam' in
      (c' :: cs'', cam'')
  end.

Fixpoint render_backward (t : Q) (cs : list Child) (cam : CameraState)
  : list Child * CameraState :=
  match cs with
  | [] => ([], cam)
  | c :: cs' =>
      let '(cs'', cam') := render_backward t cs' cam in
      let '(c', cam'') :=
        if Qle_bool t (tween_end (tween c)) then render_child t c cam' else (c, cam') in
      (c' :: cs'', cam'')
  end.

Record Timeline : Type := mkTimeline { children : list Child; time : Q }.

Definition totalDuration (cs : list Child) : Q :=
  fold_right (fun c m => Qmax (tween_end (tween c)) m) 0 cs.

(** Placing the playhead at [t], held within the timeline.  Nothing is
    rendered when the playhead is there already. *)
Definition seek (t : Q) (tl : Timeline) (cam : CameraState)
  : Timeline * CameraState :=
  let t' := clamp 0 (totalDuration (children tl)) t in
  if Qeq_bool (time tl) t' then (tl, cam)
  else
    let '(cs, cam') :=
      if Qle_bool (time tl) t' then render_forward t' (children tl) cam
      else render_backward t' (children tl) cam in
    (mkTimeline cs t', cam').

(** [scrollTrigger: { scrub }] ties the progress of the trigger to the
    progress of the whole timeline ("ScrollTrigger scrub maps the whole
    timeline to the scroll distance"): the playhead goes to that fraction of
    the total duration.  The lag that [scrub: 1] adds between a scroll and
    the playhead settling is left out. *)
Definition scrub (progress : Q) (tl : Timeline) (cam : CameraState)
  : Timeline * CameraState :=
  seek (progress * totalDuration (children tl)) tl cam.

(** The progress a trigger reports is the scrolled fraction of its range
    held in [0, 1]. *)
Definition trigger_progress (fraction : Q) : Q := clamp 0 1 fraction.

(** A new camera sits at the origin and looks down the negative z axis. *)
Definition default_pose : Pose := mkPose (mkVec3 0 0 0) (mkVec3 0 0 (-1)).

(** The [i === 0] branch of the [forEach]: the camera is put at the first
    keyframe and aimed at its look target. *)
Definition initial_pose (path : list Keyframe) : Pose :=
  match path with
  | [] => default_pose
  | first :: _ => pose_of first
  end.

(** [camera.position.set(...)] followed by [camera.lookAt(...)]: the camera
    is aimed from where it was just put.  (A new camera has the orientation
    of looking from the origin down the negative z axis.) *)
Definition initial_camera (path : list Keyframe) : CameraState :=
  mkCameraState (initial_pose path) (position (initial_pose path)).

Definition initial_timeline (path : list Keyframe) : Timeline :=
  mkTimeline (map (fun tw => mkChild tw None) (tweens_of_path path)) 0.

(** The pose the camera has once a freshly built tour is scrolled to the
    given fraction: the interpolator of the design, as the code realises
    it. *)
Definition interpolate (path : list Keyframe) (progress : Q) : Pose :=
  current (snd (scrub (trigger_progress progress) (initial_timeline path)
                  (initial_camera path))).

(** Where the playhead of a freshly built tour is put for a scrolled
    fraction. *)
Definition playhead (path : list Keyframe) (fraction : Q) : Q :=
  let D := totalDuration (children (initial_timeline path)) in
  clamp 0 D (trigger_progress fraction * D).

(** ** The running component *)

Record PerspectiveCamera : Type := mkCamera {
  state : CameraState;
  aspect : Q;
  projectionAspect : Q      (* the aspect the projection matrix was built with *)
}.

(** Position and look target of the camera. *)
Definition pose (c : PerspectiveCamera) : Pose := current (state c).

(** The position the camera was last aimed from. *)
Definition aimedFrom (c : PerspectiveCamera) : Vec3 := aimed_from (state c).

Record Renderer : Type := mkRenderer { width : Q; height : Q }.

Record App : Type := mkApp {
  camera : PerspectiveCamera;
  renderer : Renderer;
  tl : Timeline;
  scrollProgress : Q;
  currentRoom : option string
}.

(** [camera.updateProjectionMatrix()] *)
Definition updateProjectionMatrix (c : PerspectiveCamera) : PerspectiveCamera :=
  mkCamera (state c) (aspect c) (aspect c).

(** The body of the effect, for a window of the given inner size. *)
Definition setup (path : list Keyframe) (innerWidth innerHeight : Q) : App :=
  let cam := updateProjectionMatrix
               (mkCamera (initial_camera []) (innerWidth / innerHeight) 1) in
  mkApp (mkCamera (initial_camera path) (aspect cam) (projectionAspect cam))
        (mkRenderer innerWidth innerHeight)
        (initial_timeline path)
        0
        (nth_error ROOM_NAMES 0).

(** What mounting the component ends in.  [ConfigurationError] is the
    failure the design asks for on a malformed path. *)
Inductive SetupResult : Type :=
| NotMounted
| Running (app : App)
| ConfigurationError.

(** The effect returns at once when a ref is missing; past that guard no
    statement inspects the path. *)
Definition useEffect_setup (canvas scrollContainer : bool)
    (path : list Keyframe) (innerWidth innerHeight : Q) : SetupResult :=
  if negb canvas || negb scrollContainer then NotMounted
  else Running (setup path innerWidth innerHeight).

(** [onUpdate: (self) => ...] *)
Definition onUpdate (progress : Q) (app : App) : App :=
  mkApp (camera app) (renderer app) (tl app) progress (room_label progress).

(** One update of the trigger: the callback runs and the timeline is
    scrubbed to the reported progress. *)
Definition scroll_update (fraction : Q) (app : App) : App :=
  let progress := trigger_progress fraction in
  let app := onUpdate progress app in
  let '(tl', state') := scrub progress (tl app) (state (camera app)) in
  mkApp (mkCamera state' (aspect (camera app)) (projectionAspect (camera app)))
        (renderer app) tl' (scrollProgress app) (currentRoom app).

Definition handleResize (innerWidth innerHeight : Q) (app : App) : App :=
  let cam := camera app in
  let cam := mkCamera (state cam) (innerWidth / innerHeight) (projectionAspect cam) in
  let cam := updateProjectionMatrix cam in
  mkApp cam (mkRenderer innerWidth innerHeight) (tl app)
        (scrollProgress app) (currentRoom app).

(** States the component passes through: scroll updates and resizes in any
    order after the setup. *)
Inductive reachable (path : list Keyframe) (w h : Q) : App -> Prop :=
| reach_setup : reachable path w h (setup path w h)
| reach_scroll fraction app :
    reachable path w h app -> reachable path w h (scroll_update fraction app)
| reach_resize w' h' app :
    reachable path w h app -> reachable path w h (handleResize w' h' app).

(** ** The interpolator as the design describes it

    Following the design's words: find the segment with
    [path[i].t <= progress <= path[i+1].t], take
    [u = (progress - path[i].t) / (path[i+1].t - path[i].t)] and
    interpolate position and look target linearly. *)
Fixpoint segment_pose (prev : Keyframe) (points : list Keyframe) (t : Q) : Pose :=
  match points with
  | [] => pose_of prev
  | next :: points' =>
      if Qle_bool t (scroll next)
      then lerp_pose prev next ((t - scroll prev) / (scroll next - scroll prev))
      else segment_pose next points' t
  end.

Definition spec_interpolate (path : list Keyframe) (progress : Q) : Pose :=
  match path with
  | [] => default_pose
  | first :: points => segment_pose first points (clamp 0 1 progress)
  end.

(** ** Scene construction

    The scene graph the effect builds: a tree of objects, each with the
    identifier the 3D library hands out on creation (a counter that every
    [new] advances), a position, a rotation about x and about y (in units
    of pi), shadow flags and children. *)
Module Scene.

Inductive Geometry : Type :=
| PlaneGeometry (width height : Q)
| BoxGeometry (width height depth : Q)
| CylinderGeometry (radiusTop radiusBottom height : Q) (radialSegments : Z)
| ConeGeometry (radius height : Q) (radialSegments heightSegments : Z)
    (openEnded : bool).

(** Parameters of a [MeshStandardMaterial]; [None] is a parameter the
    source leaves to the library's default. *)
Record Material : Type := mkMaterial {
  color : Z;
  roughness : option Q;
  metalness : option Q;
  transparent : bool;
  opacity : option Q;
  doubleSide : bool
}.

Inductive Kind : Type :=
| SceneRoot (background fogColor : Z) (fogNear fogFar : Q)
| GroupNode
| MeshNode (geometry : Geometry) (material : Material)
| PointLightNode (color : Z) (intensity distance : Q)
| AmbientLightNode (color : Z) (intensity : Q).

#[local] Set Warnings "-register-all".
Inductive Object3D : Type :=
| mkObject3D (id : nat) (position : Vec3) (rotationX rotationY : Q)
    (castShadow receiveShadow : bool) (kind : Kind)
    (children : list Object3D).

(** Construction threads the identifier counter. *)
Definition Build (A : Type) : Type := nat -> A * nat.

Definition ret {A} (a : A) : Build A := fun n => (a, n).

Definition bind {A B} (c : Build A) (k : A -> Build B) : Build B :=
  fun n => let '(a, n') := c n in k a n'.

Notation "x <- c ;; k" := (bind c (fun x => k))
  (at level 61, c at next level, right associativity).

(** The next identifier. *)
Definition fresh : Build nat := fun n => (n, S n).

(** [new THREE.<Kind>(...)] *)
Definition new (k : Kind) : Build Object3D :=
  i <- fresh ;;
  ret (mkObject3D i (mkVec3 0 0 0) 0 0 false false k []).

Definition set_position (p : Vec3) (o : Object3D) : Object3D :=
  match o with
  | mkObject3D i _ rx ry cs rs k ch => mkObject3D i p rx ry cs rs k ch
  end.

Definition set_position_y (v : Q) (o : Object3D) : Object3D :=
  match o with
  | mkObject3D i p rx ry cs rs k ch =>
      mkObject3D i (mkVec3 (x p) v (z p)) rx ry cs rs k ch
  end.

Definition set_rotation_x (a : Q) (o : Object3D) : Object3D :=
  match o with
  | mkObject3D i p _ ry cs rs k ch => mkObject3D i p a ry cs rs k ch
  end.

Definition set_rotation_y (a : Q) (o : Object3D) : Object3D :=
  match o with
  | mkObject3D i p rx _ cs rs k ch => mkObject3D i p rx a cs rs k ch
  end.

Definition set_castShadow (b : bool) (o : Object3D) : Object3D :=
  match o with
  | mkObject3D i p rx ry _ rs k ch => mkObject3D i p rx ry b rs k ch
  end.

Definition set_receiveShadow (b : bool) (o : Object3D) : Object3D :=
  match o with
  | mkObject3D i p rx ry cs _ k ch => mkObject3D i p rx ry cs b k ch
  end.

(** [parent.add(child)] *)
Definition add (child parent : Object3D) : Object3D :=
  match parent with
  | mkObject3D i p rx ry cs rs k ch => mkObject3D i p rx ry cs rs k (ch ++ [child])
  end.

Definition standardMaterial (color : Z) (roughness metalness : option Q) : Material :=
  mkMaterial color roughness metalness false None false.

(** The wall helper inside [createRoom]. *)
Definition createWall (wallColor : Z) (w h px py pz ry : Q) (group : Object3D)
  : Build Object3D :=
  wall <- new (MeshNode (PlaneGeometry w h)
                 (standardMaterial wallColor (Some 0.5) None)) ;;
  let wall := set_position (mkVec3 px py pz) wall in
  let wall := set_rotation_y ry wall in
  let wall := set_castShadow true wall in
  let wall := set_receiveShadow true wall in
  ret (add wall group).

Definition createRoom (x z width depth height : Q) (wallColor floorColor : Z)
  : Build Object3D :=
  group <- new GroupNode ;;
  floor <- new (MeshNode (PlaneGeometry width depth)
                  (standardMaterial floorColor (Some 0.3) (Some 0.1))) ;;
  let floor := set_rotation_x (- (1 # 2)) floor in
  let floor := set_receiveShadow true floor in
  let group := add floor group in
  ceiling <- new (MeshNode (PlaneGeometry width depth)
                    (standardMaterial 0xdddddd (Some 0.8) None)) ;;
  let ceiling := set_rotation_x (1 # 2) ceiling in
  let ceiling := set_position_y height ceiling in
  let group := add ceiling group in
  group <- createWall wallColor width height 0 (height / 2) (- depth / 2) 0 group ;;
  group <- createWall wallColor depth height (- width / 2) (height / 2) 0 (1 # 2) group ;;
  group <- createWall wallColor depth height (width / 2) (height / 2) 0 (- (1 # 2)) group ;;
  bbBack <- new (MeshNode (BoxGeometry width 0.1 0.05)
                   (standardMaterial 0xc9a96e (Some 0.2) (Some 0.8))) ;;
  let bbBack := set_position (mkVec3 0 0.05 (- depth / 2 + 0.025)) bbBack in
  let group := add bbBack group in
  ret (set_position (mkVec3 x 0 z) group).

Definition createBox (w h d : Q) (color : Z) (x y z : Q) : Build Object3D :=
  mesh <- new (MeshNode (BoxGeometry w h d) (standardMaterial color (Some 0.6) None)) ;;
  let mesh := set_position (mkVec3 x y z) mesh in
  let mesh := set_castShadow true mesh in
  let mesh := set_receiveShadow true mesh in
  ret mesh.

Definition createPointLight (color : Z) (intensity distance : Q) (p : Vec3)
  : Build Object3D :=
  light <- new (PointLightNode color intensity distance) ;;
  ret (set_position p light).

Definition createLamp (x y z : Q) : Build Object3D :=
  group <- new GroupNode ;;
  stand <- new (MeshNode (CylinderGeometry 0.05 0.1 1.5 16)
                  (standardMaterial 0xc9a96e (Some 0.2) (Some 0.8))) ;;
  let stand := set_position_y 0.75 stand in
  let group := add stand group in
  shade <- new (MeshNode (ConeGeometry 0.3 0.4 32 1 true)
                  (mkMaterial 0xffffff None None true (Some 0.9) true)) ;;
  let shade := set_position_y 1.6 shade in
  let group := add shade group in
  light <- createPointLight 0xffaa00 0.8 5 (mkVec3 0 1.5 0) ;;
  let group := add light group in
  ret (set_position (mkVec3 x y z) group).

(** [parent.add(<expression creating the child>)] *)
Definition adding (child : Build Object3D) (parent : Object3D) : Build Object3D :=
  c <- child ;; ret (add c parent).

Definition createMirror : Build Object3D :=
  mirror <- new (MeshNode (PlaneGeometry 1.2 2)
                   (standardMaterial 0xffffff (Some 0.1) (Some 0.9))) ;;
  ret (set_position (mkVec3 1 2 (-1.75)) mirror).

(** Section 3 of the effect, "Build Apartment", preceded by the creation of
    the scene and of the camera (which draws an identifier too). *)
Definition buildFoyer : Build Object3D :=
  foyer <- createRoom 0 6 4 12 3.5 0xf5f5f5 0xe0e0e0 ;;
  foyer <- adding (createBox 1.5 0.8 0.4 0x8d6e63 1 0.4 (-2)) foyer ;;
  foyer <- adding createMirror foyer ;;
  foyer <- adding (createPointLight 0xffaa00 0.8 10 (mkVec3 0 3 0)) foyer ;;
  ret foyer.

Definition buildLivingRoom : Build Object3D :=
  livingRoom <- createRoom (-4) (-2) 8 8 3.5 0xffffff 0xd9d9d9 ;;
  livingRoom <- adding (createBox 3 0.6 1 0xaaddcc (-1) 0.3 (-2)) livingRoom ;;
  livingRoom <- adding (createBox 1 0.6 2 0xaaddcc 1 0.3 (-1.5)) livingRoom ;;
  livingRoom <- adding (createBox 1.2 0.4 0.8 0xf5f5f5 (-0.5) 0.2 (-0.5)) livingRoom ;;
  livingRoom <- adding (createBox 3 2 0.1 0xeeeeee (-1) 1.5 3.9) livingRoom ;;
  livingRoom <- adding (createLamp (-3) 0 (-3)) livingRoom ;;
  ret livingRoom.

Definition buildBedroom : Build Object3D :=
  bedroom <- createRoom (-8) (-8) 7 7 3.2 0xf0f8ff 0xd2b48c ;;
  bedroom <- adding (createBox 2 0.5 2.5 0xffffff 0 0.25 0) bedroom ;;
  bedroom <- adding (createBox 2.2 1 0.2 0x8b4513 0 0.5 (-1.3)) bedroom ;;
  bedroom <- adding (createBox 0.5 0.5 0.5 0xffffff (-1.5) 0.25 (-1)) bedroom ;;
  bedroom <- adding (createBox 0.5 0.5 0.5 0xffffff 1.5 0.25 (-1)) bedroom ;;
  bedroom <- adding (createPointLight 0xffaa55 0.8 8 (mkVec3 (-1.5) 1 (-1))) bedroom ;;
  ret bedroom.

Definition buildKitchen : Build Object3D :=
  kitchen <- createRoom (-4) (-14) 8 8 3.5 0xffffff 0xcccccc ;;
  kitchen <- adding (createBox 2.5 0.9 1.2 0xffffff 0 0.45 0) kitchen ;;
  kitchen <- adding (createBox 8 0.9 0.8 0xe0e0e0 0 0.45 (-3.6)) kitchen ;;
  kitchen <- adding (createBox 8 0.8 0.4 0xffffff 0 2.5 (-3.6)) kitchen ;;
  kitchen <- adding (createPointLight 0xffffff 1.0 12 (mkVec3 0 3 0)) kitchen ;;
  ret kitchen.

Definition buildStudy : Build Object3D :=
  study <- createRoom (-4) (-22) 6 6 3.2 0xf5f5dc 0xc0c0c0 ;;
  study <- adding (createBox 2 0.05 0.8 0xcd853f 0 0.75 (-1)) study ;;
  study <- adding (createBox 0.05 0.75 0.05 0x333333 (-0.9) 0.375 (-1)) study ;;
  study <- adding (createBox 0.05 0.75 0.05 0x333333 0.9 0.375 (-1)) study ;;
  study <- adding (createBox 3 2.5 0.4 0xffffff (-2.5) 1.25 0) study ;;
  study <- adding (createLamp 0.8 0.75 (-1)) study ;;
  ret study.

Definition buildScene : Build Object3D :=
  scene <- new (SceneRoot 0xf9f9f9 0xf9f9f9 5 30) ;;
  camera_id <- fresh ;;
  scene <- adding buildFoyer scene ;;
  scene <- adding buildLivingRoom scene ;;
  scene <- adding buildBedroom scene ;;
  scene <- adding buildKitchen scene ;;
  scene <- adding buildStudy scene ;;
  scene <- adding (new (AmbientLightNode 0xffffff 0.6)) scene ;;
  ret scene.

(** *** What two scene graphs are compared on *)

Fixpoint node_count (o : Object3D) : nat :=
  match o with
  | mkObject3D _ _ _ _ _ _ _ ch =>
      S ((fix go (l : list Object3D) : nat :=
            match l with [] => O | c :: l' => (node_count c + go l')%nat end) ch)
  end.

(** Position and rotation of every node, parents before children. *)
Fixpoint transforms (o : Object3D) : list (Vec3 * Q * Q) :=
  match o with
  | mkObject3D _ p rx ry _ _ _ ch =>
      (p, rx, ry) ::
      (fix go (l : list Object3D) : list (Vec3 * Q * Q) :=
         match l with [] => [] | c :: l' => transforms c ++ go l' end) ch
  end.

(** Material of every mesh, parents before children. *)
Fixpoint materials (o : Object3D) : list Material :=
  match o with
  | mkObject3D _ _ _ _ _ _ k ch =>
      match k with MeshNode _ m => [m] | _ => [] end ++
      (fix go (l : list Object3D) : list Material :=
         match l with [] => [] | c :: l' => materials c ++ go l' end) ch
  end.

(** Identifiers of every node, parents before children. *)
Fixpoint ids (o : Object3D) : list nat :=
  match o with
  | mkObject3D i _ _ _ _ _ _ ch =>
      i ::
      (fix go (l : list Object3D) : list nat :=
         match l with [] => [] | c :: l' => ids c ++ go l' end) ch
  end.

(** The graph with the identifiers blanked: its structure. *)
Fixpoint structure (o : Object3D) : Object3D :=
  match o with
  | mkObject3D _ p rx ry cs rs k ch =>
      mkObject3D O p rx ry cs rs k
        ((fix go (l : list Object3D) : list Object3D :=
            match l with [] => [] | c :: l' => structure c :: go l' end) ch)
  end.

End Scene.

(** ** Orientation

    [camera.lookAt] turns the camera so that it faces from its position
    towards the point, keeping its up vector.  With the up vector fixed,
    the orientation is given by the direction faced, and two directions
    (not zero) give the same orientation when one is a positive multiple of
    the other. *)
Definition vsub (a b : Vec3) : Vec3 :=
  mkVec3 (x a - x b) (y a - y b) (z a - z b).

Definition cross (u v : Vec3) : Vec3 :=
  mkVec3 (y u * z v - z u * y v) (z u * x v - x u * z v) (x u * y v - y u * x v).

Definition dot (u v : Vec3) : Q := x u * x v + y u * y v + z u * z v.

(** The direction the camera faces: from where it stood when it was last
    aimed, towards the point it was aimed at. *)
Definition gaze (c : CameraState) : Vec3 := vsub (lookAt (current c)) (aimed_from c).

Definition same_direction (u v : Vec3) : Prop :=
  cross u v =v= mkVec3 0 0 0 /\ 0 < dot u v.

(** ** Distance between poses

    Sum of the absolute differences of the six coordinates; used to state
    that the pose does not jump. *)
Definition dist3 (a b : Vec3) : Q :=
  Qabs (x a - x b) + Qabs (y a - y b) + Qabs (z a - z b).

Definition pose_dist (a b : Pose) : Q :=
  dist3 (position a) (position b) + dist3 (lookAt a) (lookAt b).

(** Largest rate of change of the pose over the segments of a path: the
    distance between two consecutive keyframes over the scroll they span. *)
Fixpoint max_speed (prev : Keyframe) (points : list Keyframe) : Q :=
  match points with
  | [] => 0
  | next :: points' =>
      Qmax (pose_dist (pose_of prev) (pose_of next) / (scroll next - scroll prev))
           (max_speed next points')
  end.

Definition steepest (path : list Keyframe) : Q :=
  match path with
  | [] => 0
  | first :: points => max_speed first points
  end.

(** ** Invariants of a running timeline

    Used to relate any state the timeline can be in to the path it was built
    from: which tweens its children are, and that a child that has
    initialised recorded the pose of the keyframe it departs from. *)
Definition start_ok (o : option Vec3) (v : Vec3) : Prop :=
  match o with
  | None => True
  | Some s => s =v= v
  end.

Fixpoint children_for (prev : Keyframe) (points : list Keyframe) (cs : list Child)
  : Prop :=
  match points, cs with
  | [], [] => True
  | point :: points', p :: l :: cs' =>
      tween p = position_tween prev point /\ start_ok (startValues p) (pos prev) /\
      tween l = lookAt_tween prev point /\ start_ok (startValues l) (look prev) /\
      children_for point points' cs'
  | _, _ => False
  end.

(** Every child that has not initialised starts at or after [t] ... *)
Definition uninitialised_from (t : Q) (cs : list Child) : Prop :=
  Forall (fun c => startValues c = None -> t <= startTime (tween c)) cs.

(** ... or strictly after [t]. *)
Definition uninitialised_after (t : Q) (cs : list Child) : Prop :=
  Forall (fun c => startValues c = None -> t < startTime (tween c)) cs.

(** Scroll value of the last keyframe of [prev :: points]. *)
Fixpoint final_scroll (prev : Keyframe) (points : list Keyframe) : Q :=
  match points with
  | [] => scroll prev
  | next :: points' => final_scroll next points'
  end.

Definition timeline_inv (first : Keyframe) (points : list Keyframe)
    (tl : Timeline) (cam : Pose) : Prop :=
  children_for first points (children tl) /\
  uninitialised_from (time tl) (children tl) /\
  0 <= time tl /\ time tl <= totalDuration (children tl) /\
  cam =p= segment_pose first points (time tl).

(** The three keyframes of the design's worked scenario. *)
Definition scenario_path : list Keyframe :=
  [ mkKeyframe (mkVec3 0 1.6 12) (mkVec3 0 1.6 0) 0;
    mkKeyframe (mkVec3 0 1.6 6) (mkVec3 0 1.6 0) 0.15;
    mkKeyframe (mkVec3 (-4) 1.6 (-2)) (mkVec3 (-8) 1.6 (-2)) 0.35 ].

(** ** Coordinates by axis *)

Inductive Axis : Type := AxisX | AxisY | AxisZ.

Definition coord (a : Axis) (v : Vec3) : Q :=
  match a with
  | AxisX => x v
  | AxisY => y v
  | AxisZ => z v
  end.

(** The two vectors of a pose or of a keyframe. *)
Inductive Part : Type := PositionPart | LookAtPart.

Definition part_of_pose (part : Part) (p : Pose) : Vec3 :=
  match part with
  | PositionPart => position p
  | LookAtPart => lookAt p
  end.

Definition part_of_keyframe (part : Part) (k : Keyframe) : Vec3 :=
  match part with
  | PositionPart => pos k
  | LookAtPart => look k
  end.

(** One coordinate of one of the two vectors. *)
Definition keyframe_coord (a : Axis) (part : Part) (k : Keyframe) : Q :=
  coord a (part_of_keyframe part k).

Definition pose_coord (a : Axis) (part : Part) (p : Pose) : Q :=
  coord a (part_of_pose part p).

Fixpoint nonincreasing_from (prev : Q) (vs : list Q) : bool :=
  match vs with
  | [] => true
  | v :: vs' => Qle_bool v prev && nonincreasing_from v vs'
  end.

Definition nonincreasing (vs : list Q) : bool :=
  match vs with
  | [] => true
  | v :: vs' => nonincreasing_from v vs'
  end.

(** ** What the component renders from the scroll progress

    The class switches of the JSX: the navigation bar turns solid past 5%,
    the progress bar is [scrollProgress * 100] percent wide, and each of the
    six overlay sections is opaque on its own range of progress. *)
Inductive Overlay : Type :=
| HeroSection | AboutSection | ServicesSection | PortfolioSection
| TestimonialsSection | ContactSection.

Definition overlays : list Overlay :=
  [HeroSection; AboutSection; ServicesSection; PortfolioSection;
   TestimonialsSection; ContactSection].

Definition overlay_visible (o : Overlay) (scrollProgress : Q) : bool :=
  match o with
  | HeroSection => Qltb scrollProgress 0.15
  | AboutSection => Qltb 0.18 scrollProgress && Qltb scrollProgress 0.35
  | ServicesSection => Qltb 0.38 scrollProgress && Qltb scrollProgress 0.55
  | PortfolioSection => Qltb 0.58 scrollProgress && Qltb scrollProgress 0.75
  | TestimonialsSection => Qltb 0.72 scrollProgress && Qltb scrollProgress 0.88
  | ContactSection => Qltb 0.88 scrollProgress
  end.

Definition visible_overlays (scrollProgress : Q) : list Overlay :=
  filter (fun o => overlay_visible o scrollProgress) overlays.

Definition nav_solid (scrollProgress : Q) : bool := Qltb 0.05 scrollProgress.

Definition progress_bar_width (scrollProgress : Q) : Q := scrollProgress * 100.

(** ** Scrolling forward only

    States reached from the setup by resizes and by scroll updates none of
    which reports less progress than is stored. *)
Inductive reachable_forward (path : list Keyframe) (w h : Q) : App -> Prop :=
| forward_setup : reachable_forward path w h (setup path w h)
| forward_scroll fraction app :
    reachable_forward path w h app ->
    scrollProgress app <= fraction ->
    reachable_forward path w h (scroll_update fraction app)
| forward_resize w' h' app :
    reachable_forward path w h app ->
    reachable_forward path w h (handleResize w' h' app).

(** ** The render loop and the teardown

    The component together with what the browser holds for it: the
    animation frame callbacks requested and not yet run (each one is
    [animate]), the [resize] listener and the scroll trigger. *)
Record Mounted : Type := mkMounted {
  component : App;
  animationId : option nat;      (* [let animationId], unset at first *)
  frameRequests : list nat;      (* handles of the pending callbacks *)
  nextHandle : nat;              (* the handle the next request gets *)
  framesRendered : nat;          (* calls of [renderer.render] so far *)
  resizeListener : bool;         (* [handleResize] is registered *)
  triggerAlive : bool;           (* the timeline's trigger is not killed *)
  rendererDisposed : bool
}.

(** [animate]: request the next frame, remember its handle, render. *)
Definition animate (m : Mounted) : Mounted :=
  mkMounted (component m)
            (Some (nextHandle m)) (frameRequests m ++ [nextHandle m])
            (S (nextHandle m)) (S (framesRendered m))
            (resizeListener m) (triggerAlive m) (rendererDisposed m).

(** The effect body, past its guard: the scene and timeline are set up, the
    loop is started, the listener is installed. *)
Definition mount (path : list Keyframe) (innerWidth innerHeight : Q) : Mounted :=
  animate (mkMounted (setup path innerWidth innerHeight) None [] O O
                     true true false).

(** [cancelAnimationFrame(handle)]; an unset or unknown handle cancels
    nothing. *)
Definition cancelAnimationFrame (handle : option nat) (requests : list nat)
  : list nat :=
  match handle with
  | None => requests
  | Some h => filter (fun r => negb (Nat.eqb r h)) requests
  end.

(** The function the effect returns: the listener is removed, the frame
    whose handle is in [animationId] is cancelled, the triggers are killed,
    the renderer is disposed of. *)
Definition cleanup (m : Mounted) : Mounted :=
  mkMounted (component m) (animationId m)
            (cancelAnimationFrame (animationId m) (frameRequests m))
            (nextHandle m) (framesRendered m)
            false false true.

Inductive Event : Type :=
| AnimationFrame               (* the browser runs the requested callbacks *)
| ResizeEvent (innerWidth innerHeight : Q)
| ScrollEvent (fraction : Q)
| Unmount.

Definition is_frame (e : Event) : bool :=
  match e with AnimationFrame => true | _ => false end.

Definition is_unmount (e : Event) : bool :=
  match e with Unmount => true | _ => false end.

(** The callbacks requested before the frame are run, one after the other;
    what they request is for the next frame. *)
Definition run_frame (m : Mounted) : Mounted :=
  fold_left (fun m' _ => animate m') (frameRequests m)
    (mkMounted (component m) (animationId m) [] (nextHandle m)
               (framesRendered m)
               (resizeListener m) (triggerAlive m) (rendererDisposed m)).

Definition with_app (a : App) (m : Mounted) : Mounted :=
  mkMounted a (animationId m) (frameRequests m) (nextHandle m)
            (framesRendered m)
            (resizeListener m) (triggerAlive m) (rendererDisposed m).

Definition step (e : Event) (m : Mounted) : Mounted :=
  match e with
  | AnimationFrame => run_frame m
  | ResizeEvent w h =>
      if resizeListener m then with_app (handleResize w h (component m)) m else m
  | ScrollEvent fraction =>
      if triggerAlive m then with_app (scroll_update fraction (component m)) m else m
  | Unmount => cleanup m
  end.

Definition run (events : list Event) (m : Mounted) : Mounted :=
  fold_left (fun m' e => step e m') events m.

(** While the loop runs exactly one frame is requested, and [animationId]
    holds its handle. *)
Definition looping (m : Mounted) : Prop :=
  exists handle, frameRequests m = [handle] /\ animationId m = Some handle.

(** After the teardown nothing is left that could call into the component. *)
Definition torn_down (m : Mounted) : Prop :=
  frameRequests m = [] /\ resizeListener m = false /\ triggerAlive m = false /\
  rendererDisposed m = true.

(** ** Reading a scene graph *)

Definition kind_of (o : Scene.Object3D) : Scene.Kind :=
  match o with Scene.mkObject3D _ _ _ _ _ _ k _ => k end.

Definition castShadow_of (o : Scene.Object3D) : bool :=
  match o with Scene.mkObject3D _ _ _ _ cs _ _ _ => cs end.

Definition receiveShadow_of (o : Scene.Object3D) : bool :=
  match o with Scene.mkObject3D _ _ _ _ _ rs _ _ => rs end.

(** Every node of a graph, parents before children. *)
Fixpoint nodes_of (o : Scene.Object3D) : list Scene.Object3D :=
  match o with
  | Scene.mkObject3D _ _ _ _ _ _ _ ch =>
      o :: (fix go (l : list Scene.Object3D) : list Scene.Object3D :=
              match l with [] => [] | c :: l' => nodes_of c ++ go l' end) ch
  end.

Definition is_light (o : Scene.Object3D) : bool :=
  match kind_of o with
  | Scene.PointLightNode _ _ _ | Scene.AmbientLightNode _ _ => true
  | _ => false
  end.

Definition is_mesh (o : Scene.Object3D) : bool :=
  match kind_of o with
  | Scene.MeshNode _ _ => true
  | _ => false
  end.

(** * Properties *)

Lemma Qltb_true (a b : Q) : Qltb a b = true <-> a < b.
Proof.
  unfold Qltb. rewrite negb_true_iff. split; intro H.
  - apply Qnot_le_lt. intro L. apply Qle_bool_iff in L. congruence.
  - destruct (Qle_bool b a) eqn:E; [|reflexivity].
    apply Qle_bool_iff in E. exfalso. apply (Qlt_not_le _ _ H E).
Qed.

Lemma Qltb_false (a b : Q) : Qltb a b = false <-> b <= a.
Proof.
  unfold Qltb. rewrite negb_false_iff. apply Qle_bool_iff.
Qed.

Lemma Qle_bool_false (a b : Q) : Qle_bool a b = false <-> b < a.
Proof.
  split; intro H.
  - apply Qnot_le_lt. intro L. apply Qle_bool_iff in L. congruence.
  - destruct (Qle_bool a b) eqn:E; [|reflexivity].
    apply Qle_bool_iff in E. exfalso. apply (Qlt_not_le _ _ H E).
Qed.


(** ** Room labels *)

Lemma room_index_cases (p : Q) :
  (p < 0.2 /\ room_index p = 0%nat) \/
  (0.2 <= p /\ p < 0.4 /\ room_index p = 1%nat) \/
  (0.4 <= p /\ p < 0.6 /\ room_index p = 2%nat) \/
  (0.6 <= p /\ p < 0.8 /\ room_index p = 3%nat) \/
  (0.8 <= p /\ room_index p = 4%nat).
Proof.
  unfold room_index.
  destruct (Qltb p 0.2) eqn:E1; [apply Qltb_true in E1; tauto|].
  destruct (Qltb p 0.4) eqn:E2;
    [apply Qltb_true in E2; apply Qltb_false in E1; tauto|].
  destruct (Qltb p 0.6) eqn:E3;
    [apply Qltb_true in E3; apply Qltb_false in E2; tauto|].
  destruct (Qltb p 0.8) eqn:E4;
    [apply Qltb_true in E4; apply Qltb_false in E3; tauto|].
  apply Qltb_false in E4. tauto.
Qed.

Lemma ROOM_NAMES_NoDup : NoDup ROOM_NAMES.
Proof.
  unfold ROOM_NAMES.
  repeat (constructor; [simpl; intuition discriminate|]).
  constructor.
Qed.

(** C3. The room label is chosen by four thresholds that cut the progress
    range into five buckets, one per entry of [ROOM_NAMES]: below 0.2 the
    first name, from 0.2 to below 0.4 the second, from 0.4 to below 0.6 the
    third, from 0.6 to below 0.8 the fourth, from 0.8 on the fifth.  The
    five names are distinct, every progress selects exactly one of them,
    and every bucket is hit by some progress in [0, 1]. *)
Theorem C3_room_label_buckets :
  List.length ROOM_NAMES = 5%nat /\
  NoDup ROOM_NAMES /\
  (forall p : Q,
      (p < 0.2 /\ room_label p = Some "The Grand Foyer"%string) \/
      (0.2 <= p /\ p < 0.4 /\ room_label p = Some "The Living Room"%string) \/
      (0.4 <= p /\ p < 0.6 /\ room_label p = Some "The Master Suite"%string) \/
      (0.6 <= p /\ p < 0.8 /\ room_label p = Some "The Modular Kitchen"%string) \/
      (0.8 <= p /\ room_label p = Some "The Private Study"%string)) /\
  (forall p : Q,
      exists! i : nat, (i < 5)%nat /\ room_label p = nth_error ROOM_NAMES i) /\
  (forall i : nat, (i < 5)%nat ->
      exists p : Q, 0 <= p /\ p <= 1 /\ room_index p = i).
Proof.
  split; [reflexivity|]. split; [exact ROOM_NAMES_NoDup|].
  split; [|split].
  - intro p. unfold room_label.
    destruct (room_index_cases p) as [[H E]|[[H [H' E]]|[[H [H' E]]|[[H [H' E]]|[H E]]]]];
      rewrite E; simpl; tauto.
  - intro p. exists (room_index p). split.
    + split; [|reflexivity].
      destruct (room_index_cases p) as [[H E]|[[H [H' E]]|[[H [H' E]]|[[H [H' E]]|[H E]]]]];
        rewrite E; lia.
    + intros j [Hj Hl]. unfold room_label in Hl.
      assert (Hi : (room_index p < List.length ROOM_NAMES)%nat).
      { destruct (room_index_cases p) as [[H E]|[[H [H' E]]|[[H [H' E]]|[[H [H' E]]|[H E]]]]];
          rewrite E; simpl; lia. }
      apply (proj1 (NoDup_nth_error ROOM_NAMES) ROOM_NAMES_NoDup _ _ Hi Hl).
  - intros i Hi.
    destruct i as [|[|[|[|[|i]]]]]; [| | | | |lia].
    + exists 0.1. repeat split; try reflexivity; discriminate.
    + exists 0.3. repeat split; try reflexivity; discriminate.
    + exists 0.5. repeat split; try reflexivity; discriminate.
    + exists 0.7. repeat split; try reflexivity; discriminate.
    + exists 0.9. repeat split; try reflexivity; discriminate.
Qed.

Lemma C3_room_label_buckets_witness :
  exists p : Q, 0 <= p /\ p <= 1 /\ room_index p = 2%nat.
Proof.
  apply (proj2 (proj2 (proj2 (proj2 C3_room_label_buckets))) 2%nat). lia.
Defined.

(** ** The camera path table *)

Lemma strictly_increasing_from_cons (t t1 : Q) (ts : list Q) :
  strictly_increasing_from t (t1 :: ts) = true ->
  t < t1 /\ strictly_increasing_from t1 ts = true.
Proof.
  simpl. intro H. apply andb_true_iff in H. destruct H as [H1 H2].
  apply Qltb_true in H1. tauto.
Qed.

(** Every later value exceeds the one the scan started from. *)
Lemma strictly_increasing_from_lt (ts : list Q) :
  forall t v, strictly_increasing_from t ts = true -> In v ts -> t < v.
Proof.
  induction ts as [|t1 ts IH]; intros t v H Hin; [contradiction|].
  apply strictly_increasing_from_cons in H. destruct H as [Hlt Hrest].
  destruct Hin as [->|Hin]; [exact Hlt|].
  apply Qlt_trans with t1; [exact Hlt|]. apply IH; assumption.
Qed.

Lemma strictly_increasing_nth (ts : list Q) :
  strictly_increasing ts = true ->
  forall i j a b, (i < j)%nat ->
    nth_error ts i = Some a -> nth_error ts j = Some b -> a < b.
Proof.
  induction ts as [|t ts IH]; intros H i j a b Hij Ha Hb.
  - destruct i; discriminate.
  - destruct j as [|j]; [lia|]. simpl in Hb.
    destruct i as [|i]; simpl in Ha.
    + injection Ha as <-. apply strictly_increasing_from_lt with ts; [exact H|].
      eapply nth_error_In; eassumption.
    + apply IH with i j; [|lia|assumption|assumption].
      destruct ts as [|t1 ts]; [reflexivity|].
      apply strictly_increasing_from_cons in H. apply H.
Qed.

(** C6. [CAMERA_PATH] meets the CameraPath invariant: it has at least two
    keyframes (ten), its scroll values increase strictly along the table,
    so that no two keyframes share one, the first is 0 and the last is 1. *)
Theorem C6_camera_path_invariant :
  camera_path_ok CAMERA_PATH = true /\
  (2 <= List.length CAMERA_PATH)%nat /\
  (forall i j a b, (i < j)%nat ->
      nth_error CAMERA_PATH i = Some a -> nth_error CAMERA_PATH j = Some b ->
      scroll a < scroll b) /\
  (forall i j a b, i <> j ->
      nth_error CAMERA_PATH i = Some a -> nth_error CAMERA_PATH j = Some b ->
      ~ scroll a == scroll b) /\
  (exists k, hd_error CAMERA_PATH = Some k /\ scroll k == 0) /\
  (exists k, hd_error (rev CAMERA_PATH) = Some k /\ scroll k == 1).
Proof.
  assert (Hinc : forall i j a b, (i < j)%nat ->
      nth_error CAMERA_PATH i = Some a -> nth_error CAMERA_PATH j = Some b ->
      scroll a < scroll b).
  { intros i j a b Hij Ha Hb.
    apply (strictly_increasing_nth (scrolls CAMERA_PATH)) with i j.
    - reflexivity.
    - exact Hij.
    - unfold scrolls. rewrite nth_error_map, Ha. reflexivity.
    - unfold scrolls. rewrite nth_error_map, Hb. reflexivity. }
  split; [reflexivity|]. split; [simpl; lia|]. split; [exact Hinc|].
  split; [|split].
  - intros i j a b Hij Ha Hb Heq.
    destruct (Nat.lt_total i j) as [L|[E|L]]; [|contradiction|].
    + apply (Qlt_irrefl (scroll a)). rewrite Heq at 2. exact (Hinc i j a b L Ha Hb).
    + apply (Qlt_irrefl (scroll a)). rewrite Heq at 1. exact (Hinc j i b a L Hb Ha).
  - eexists. split; [reflexivity|]. reflexivity.
  - eexists. split; [reflexivity|]. reflexivity.
Qed.

Lemma C6_camera_path_invariant_witness : 0.25 < 0.75.
Proof.
  exact (proj1 (proj2 (proj2 C6_camera_path_invariant)) 2%nat 7%nat
           (mkKeyframe (mkVec3 0 1.6 0) (mkVec3 (-4) 1.6 (-2)) 0.25)
           (mkKeyframe (mkVec3 (-4) 1.6 (-14)) (mkVec3 (-4) 1.6 (-18)) 0.75)
           ltac:(lia) eq_refl eq_refl).
Defined.

(** ** Resizing *)

Lemma handleResize_scroll_update_comm (w h fraction : Q) (app : App) :
  handleResize w h (scroll_update fraction app)
  = scroll_update fraction (handleResize w h app).
Proof.
  unfold scroll_update, handleResize, onUpdate, updateProjectionMatrix. simpl.
  destruct (scrub (trigger_progress fraction) (tl app) (state (camera app)))
    as [tl' state'].
  reflexivity.
Qed.

(** C8. The resize handler sets the camera's aspect to width over height,
    rebuilds the projection with it and resizes the renderer, and leaves
    the scroll progress, the room label, the timeline and the camera pose
    as they were; a scroll update and a resize can be swapped. *)
Theorem C8_resize_leaves_scroll_state (w h : Q) (app : App) :
  ~ h == 0 ->
  let app' := handleResize w h app in
  aspect (camera app') = w / h /\
  projectionAspect (camera app') = w / h /\
  renderer app' = mkRenderer w h /\
  scrollProgress app' = scrollProgress app /\
  currentRoom app' = currentRoom app /\
  tl app' = tl app /\
  pose (camera app') = pose (camera app) /\
  (forall fraction,
      handleResize w h (scroll_update fraction app)
      = scroll_update fraction (handleResize w h app)).
Proof.
  intros _. simpl. repeat split.
  intro fraction. apply handleResize_scroll_update_comm.
Qed.

(** The resize scenario: a tour set up at 1920x1080 and scrolled a quarter
    of the way is resized to 800x600; the aspect goes from 16/9 to 4/3 and
    progress and pose stay. *)
Lemma C8_resize_leaves_scroll_state_witness :
  let app := scroll_update 0.25 (setup CAMERA_PATH 1920 1080) in
  let app' := handleResize 800 600 app in
  aspect (camera app) == 16 # 9 /\
  aspect (camera app') == 4 # 3 /\
  projectionAspect (camera app') == 4 # 3 /\
  renderer app' = mkRenderer 800 600 /\
  scrollProgress app' = scrollProgress app /\
  pose (camera app') = pose (camera app).
Proof.
  intros app app'.
  assert (H : ~ 600 == 0) by discriminate.
  destruct (C8_resize_leaves_scroll_state 800 600 app H)
    as [Ha [Hp [Hr [Hs [_ [_ [Hpose _]]]]]]].
  fold app' in Ha, Hp, Hr, Hs, Hpose.
  split; [vm_compute; reflexivity|].
  split; [rewrite Ha; vm_compute; reflexivity|].
  split; [rewrite Hp; vm_compute; reflexivity|].
  split; [exact Hr|]. split; [exact Hs|exact Hpose].
Defined.

(** ** Scene construction *)

Lemma createRoom_structure (x z width depth height : Q) (wallColor floorColor : Z)
    (n m : nat) :
  Scene.structure (fst (Scene.createRoom x z width depth height wallColor floorColor n))
  = Scene.structure (fst (Scene.createRoom x z width depth height wallColor floorColor m)).
Proof. reflexivity. Qed.

Lemma createBox_structure (w h d : Q) (color : Z) (x y z : Q) (n m : nat) :
  Scene.structure (fst (Scene.createBox w h d color x y z n))
  = Scene.structure (fst (Scene.createBox w h d color x y z m)).
Proof. reflexivity. Qed.

Lemma createLamp_structure (x y z : Q) (n m : nat) :
  Scene.structure (fst (Scene.createLamp x y z n))
  = Scene.structure (fst (Scene.createLamp x y z m)).
Proof. reflexivity. Qed.

(** C9. Scene construction is deterministic.  Each builder, given the same
    descriptor (origin, sizes, colours), gives the same structure whatever
    the identifier counter stands at; and building the whole scene twice
    gives graphs of the same structure: the same tree once the identifiers
    are blanked, hence the same number of nodes (65), the same position and
    rotation at every node and the same material parameters on every mesh.
    Each build draws 66 fresh identifiers, the first for the scene root. *)
Theorem C9_scene_determinism (n m : nat) :
  (forall x z width depth height wallColor floorColor,
      Scene.structure
        (fst (Scene.createRoom x z width depth height wallColor floorColor n))
      = Scene.structure
          (fst (Scene.createRoom x z width depth height wallColor floorColor m))) /\
  (forall w h d color x y z,
      Scene.structure (fst (Scene.createBox w h d color x y z n))
      = Scene.structure (fst (Scene.createBox w h d color x y z m))) /\
  (forall x y z,
      Scene.structure (fst (Scene.createLamp x y z n))
      = Scene.structure (fst (Scene.createLamp x y z m))) /\
  let g1 := fst (Scene.buildScene n) in
  let g2 := fst (Scene.buildScene m) in
  Scene.structure g1 = Scene.structure g2 /\
  Scene.node_count g1 = 65%nat /\
  Scene.node_count g2 = 65%nat /\
  Scene.transforms g1 = Scene.transforms g2 /\
  Scene.materials g1 = Scene.materials g2 /\
  snd (Scene.buildScene n) = (66 + n)%nat /\
  hd_error (Scene.ids g1) = Some n /\
  hd_error (Scene.ids g2) = Some m.
Proof.
  split; [intros; apply createRoom_structure|].
  split; [intros; apply createBox_structure|].
  split; [intros; apply createLamp_structure|].
  cbv zeta. repeat split; reflexivity.
Qed.

(** ** Validation of the path *)

(** C5, as the code has it.  Mounting with both refs present always ends
    in a running component, whatever the path: nothing checks the number of
    keyframes or the order of their scroll values, and no configuration
    error is raised.  A path with fewer than two keyframes puts no tween on
    the timeline and the camera keeps its initial pose at every progress;
    the table the program ships is well formed. *)
Theorem C5_no_path_validation :
  (forall path w h,
      useEffect_setup true true path w h = Running (setup path w h)) /\
  (forall path w h canvas scrollContainer,
      useEffect_setup canvas scrollContainer path w h <> ConfigurationError) /\
  (forall path progress, (List.length path < 2)%nat ->
      tweens_of_path path = [] /\ interpolate path progress = initial_pose path) /\
  camera_path_ok CAMERA_PATH = true.
Proof.
  split; [reflexivity|]. split; [|split].
  - intros path w h canvas scrollContainer. unfold useEffect_setup.
    destruct (negb canvas || negb scrollContainer); discriminate.
  - intros path progress Hlen.
    destruct path as [|k [|k' path]]; simpl in Hlen; try lia.
    + split; [reflexivity|].
      unfold interpolate, scrub, seek. simpl.
      destruct (Qeq_bool 0 _); [reflexivity|].
      destruct (Qle_bool 0 _); reflexivity.
    + split; [reflexivity|].
      unfold interpolate, scrub, seek. simpl.
      destruct (Qeq_bool 0 _); [reflexivity|].
      destruct (Qle_bool 0 _); reflexivity.
  - reflexivity.
Qed.

Lemma C5_no_path_validation_witness :
  interpolate [mkKeyframe (mkVec3 0 1.6 12) (mkVec3 0 1.6 0) 0] 0.5
  = mkPose (mkVec3 0 1.6 12) (mkVec3 0 1.6 0).
Proof.
  exact (proj2 (proj1 (proj2 (proj2 C5_no_path_validation))
                  [mkKeyframe (mkVec3 0 1.6 12) (mkVec3 0 1.6 0) 0] 0.5
                  ltac:(simpl; lia))).
Defined.

(** The design's requirement does not hold of the code: a path of a single
    keyframe, and one whose second keyframe repeats the scroll value of the
    first, both mount. *)
Lemma C5_invalid_path_mounts :
  let one := [mkKeyframe (mkVec3 0 1.6 12) (mkVec3 0 1.6 0) 0] in
  let dup := [mkKeyframe (mkVec3 0 1.6 12) (mkVec3 0 1.6 0) 0;
              mkKeyframe (mkVec3 0 1.6 6) (mkVec3 0 1.6 0) 0] in
  (2 <=? List.length one)%nat = false /\
  strictly_increasing (scrolls dup) = false /\
  useEffect_setup true true one 1920 1080 <> ConfigurationError /\
  useEffect_setup true true dup 1920 1080 <> ConfigurationError.
Proof.
  cbv zeta. repeat split; try reflexivity; discriminate.
Qed.

(** ** Equality of vectors and poses *)

Lemma Vec3_eq_refl (a : Vec3) : a =v= a.
Proof. repeat split; reflexivity. Qed.

Lemma Vec3_eq_sym (a b : Vec3) : a =v= b -> b =v= a.
Proof. intros [H1 [H2 H3]]. repeat split; symmetry; assumption. Qed.

Lemma Vec3_eq_trans (a b c : Vec3) : a =v= b -> b =v= c -> a =v= c.
Proof.
  intros [H1 [H2 H3]] [K1 [K2 K3]].
  repeat split; etransitivity; eassumption.
Qed.

#[export] Instance Vec3_eq_Equivalence : Equivalence Vec3_eq.
Proof.
  split; [exact Vec3_eq_refl|exact Vec3_eq_sym|exact Vec3_eq_trans].
Qed.

#[export] Instance Pose_eq_Equivalence : Equivalence Pose_eq.
Proof.
  split.
  - intro a. split; reflexivity.
  - intros a b [H1 H2]. split; symmetry; assumption.
  - intros a b c [H1 H2] [K1 K2]. split; etransitivity; eassumption.
Qed.

(** ** Linear interpolation *)

#[export] Instance lerp_Proper : Proper (Qeq ==> Qeq ==> Qeq ==> Qeq) lerp.
Proof.
  intros a a' Ha b b' Hb u u' Hu. unfold lerp. rewrite Ha, Hb, Hu. reflexivity.
Qed.

Lemma lerp_0 (a b u : Q) : u == 0 -> lerp a b u == a.
Proof. intro H. unfold lerp. rewrite H. ring. Qed.

Lemma lerp_1 (a b u : Q) : u == 1 -> lerp a b u == b.
Proof. intro H. unfold lerp. rewrite H. ring. Qed.

#[export] Instance lerp3_Proper : Proper (Vec3_eq ==> Vec3_eq ==> Qeq ==> Vec3_eq) lerp3.
Proof.
  intros a a' [Ha1 [Ha2 Ha3]] b b' [Hb1 [Hb2 Hb3]] u u' Hu.
  unfold lerp3. repeat split; simpl; apply lerp_Proper; assumption.
Qed.

Lemma lerp3_0 (a b : Vec3) (u : Q) : u == 0 -> lerp3 a b u =v= a.
Proof. intro H. repeat split; simpl; apply lerp_0; exact H. Qed.

Lemma lerp3_1 (a b : Vec3) (u : Q) : u == 1 -> lerp3 a b u =v= b.
Proof. intro H. repeat split; simpl; apply lerp_1; exact H. Qed.

Lemma lerp_pose_0 (a b : Keyframe) (u : Q) : u == 0 -> lerp_pose a b u =p= pose_of a.
Proof. intro H. split; simpl; apply lerp3_0; exact H. Qed.

Lemma lerp_pose_1 (a b : Keyframe) (u : Q) : u == 1 -> lerp_pose a b u =p= pose_of b.
Proof. intro H. split; simpl; apply lerp3_1; exact H. Qed.

Lemma lerp_pose_compat (a b : Keyframe) (u u' : Q) :
  u == u' -> lerp_pose a b u =p= lerp_pose a b u'.
Proof.
  intro H. split; simpl; apply lerp3_Proper; try reflexivity; exact H.
Qed.

(** ** Clamping *)

Lemma clamp_inside (lo hi v : Q) : lo <= v -> v <= hi -> clamp lo hi v = v.
Proof.
  intros H1 H2. unfold clamp.
  apply Qltb_false in H1. apply Qltb_false in H2. rewrite H1, H2. reflexivity.
Qed.

Lemma clamp_below (lo hi v : Q) : v < lo -> clamp lo hi v = lo.
Proof.
  intro H. unfold clamp. apply Qltb_true in H. rewrite H. reflexivity.
Qed.

Lemma clamp_above (lo hi v : Q) : lo <= hi -> hi < v -> clamp lo hi v = hi.
Proof.
  intros Hlh H. unfold clamp.
  assert (Hlo : lo <= v) by (apply Qle_trans with hi; [exact Hlh|apply Qlt_le_weak, H]).
  apply Qltb_false in Hlo. apply Qltb_true in H. rewrite Hlo, H. reflexivity.
Qed.

Lemma clamp_bounds (lo hi v : Q) : lo <= hi -> lo <= clamp lo hi v /\ clamp lo hi v <= hi.
Proof.
  intro Hlh. unfold clamp.
  destruct (Qltb v lo) eqn:E1; [split; [apply Qle_refl|exact Hlh]|].
  destruct (Qltb hi v) eqn:E2; [split; [exact Hlh|apply Qle_refl]|].
  apply Qltb_false in E1. apply Qltb_false in E2. tauto.
Qed.

Lemma Qltb_compat (a a' b b' : Q) : a == a' -> b == b' -> Qltb a b = Qltb a' b'.
Proof.
  intros Ha Hb. unfold Qltb. f_equal. apply Qleb_comp; assumption.
Qed.

Lemma clamp_top (lo hi v : Q) : lo <= hi -> hi <= v -> clamp lo hi v == hi.
Proof.
  intros Hlh H. destruct (Qlt_le_dec hi v) as [L|L].
  - rewrite clamp_above; [reflexivity|exact Hlh|exact L].
  - rewrite clamp_inside; [apply Qle_antisym; assumption| |exact L].
    apply Qle_trans with hi; assumption.
Qed.

Lemma clamp_bottom (lo hi v : Q) : lo <= hi -> v <= lo -> clamp lo hi v == lo.
Proof.
  intros Hlh H. destruct (Qlt_le_dec v lo) as [L|L].
  - rewrite clamp_below; [reflexivity|exact L].
  - rewrite clamp_inside; [apply Qle_antisym; assumption|exact L|].
    apply Qle_trans with lo; assumption.
Qed.

(** ** Ratio of a tween *)

Lemma ratio_at_running (tw : Tween) (t : Q) :
  0 < duration tw ->
  ratio_at tw t = clamp 0 1 ((t - startTime tw) / duration tw).
Proof.
  intro H. unfold ratio_at. apply Qle_bool_false in H. rewrite H. reflexivity.
Qed.

Lemma div_between (n d : Q) : 0 < d -> 0 <= n -> n <= d -> 0 <= n / d /\ n / d <= 1.
Proof.
  intros Hd Hn Hnd. split.
  - apply Qle_shift_div_l; [exact Hd|]. rewrite Qmult_0_l. exact Hn.
  - apply Qle_shift_div_r; [exact Hd|]. rewrite Qmult_1_l. exact Hnd.
Qed.

Lemma ratio_at_inside (tw : Tween) (t : Q) :
  0 < duration tw -> startTime tw <= t -> t <= tween_end tw ->
  ratio_at tw t = (t - startTime tw) / duration tw.
Proof.
  intros Hd Hs He. rewrite ratio_at_running by exact Hd.
  unfold tween_end in He.
  destruct (div_between (t - startTime tw) (duration tw) Hd) as [H0 H1]; try lra.
  apply clamp_inside; assumption.
Qed.

Lemma ratio_at_done (tw : Tween) (t : Q) :
  0 < duration tw -> tween_end tw <= t -> ratio_at tw t == 1.
Proof.
  intros Hd He. rewrite ratio_at_running by exact Hd.
  unfold tween_end in He.
  apply clamp_top; [discriminate|].
  apply Qle_shift_div_l; [exact Hd|]. lra.
Qed.

(** ** The piecewise pose *)

Lemma segment_pose_compat (points : list Keyframe) :
  forall prev t t', t == t' ->
    segment_pose prev points t =p= segment_pose prev points t'.
Proof.
  induction points as [|next points IH]; intros prev t t' H; simpl.
  - reflexivity.
  - rewrite (Qleb_comp t t' H (scroll next) (scroll next) (Qeq_refl _)).
    destruct (Qle_bool t' (scroll next)).
    + apply lerp_pose_compat. rewrite H. reflexivity.
    + apply IH. exact H.
Qed.

Lemma segment_pose_at_start (points : list Keyframe) (prev : Keyframe) (t : Q) :
  strictly_increasing_from (scroll prev) (scrolls points) = true ->
  t == scroll prev ->
  segment_pose prev points t =p= pose_of prev.
Proof.
  intros Hinc Ht. destruct points as [|next points]; simpl.
  - reflexivity.
  - apply strictly_increasing_from_cons in Hinc. destruct Hinc as [Hlt _].
    assert (Hle : Qle_bool t (scroll next) = true).
    { apply Qle_bool_iff. rewrite Ht. apply Qlt_le_weak. exact Hlt. }
    rewrite Hle. apply lerp_pose_0. rewrite Ht.
    unfold Qdiv. ring.
Qed.

Lemma unit_ratio (a b t : Q) : a < b -> t == b -> (t - a) / (b - a) == 1.
Proof.
  intros Hab Ht. rewrite Ht. field. lra.
Qed.

Lemma segment_pose_step (prev next : Keyframe) (points : list Keyframe) (t : Q) :
  strictly_increasing_from (scroll prev) (scrolls (next :: points)) = true ->
  scroll next <= t ->
  segment_pose prev (next :: points) t =p= segment_pose next points t.
Proof.
  intros Hinc Ht. simpl.
  apply strictly_increasing_from_cons in Hinc. destruct Hinc as [Hlt Hinc].
  destruct (Qle_bool t (scroll next)) eqn:E; [|reflexivity].
  apply Qle_bool_iff in E.
  assert (Heq : t == scroll next) by (apply Qle_antisym; assumption).
  rewrite (segment_pose_at_start points next t Hinc Heq).
  apply lerp_pose_1. apply unit_ratio; assumption.
Qed.

Lemma segment_pose_at_keyframe (points : list Keyframe) :
  forall prev k,
    strictly_increasing_from (scroll prev) (scrolls points) = true ->
    In k (prev :: points) ->
    segment_pose prev points (scroll k) =p= pose_of k.
Proof.
  induction points as [|next points IH]; intros prev k Hinc Hin.
  - destruct Hin as [->|[]]. reflexivity.
  - destruct Hin as [->|Hin].
    + apply segment_pose_at_start; [exact Hinc|reflexivity].
    + assert (Hle : scroll next <= scroll k).
      { destruct Hin as [->|Hin]; [apply Qle_refl|].
        apply strictly_increasing_from_cons in Hinc. destruct Hinc as [_ Hinc].
        apply Qlt_le_weak. apply strictly_increasing_from_lt with (scrolls points).
        - exact Hinc.
        - unfold scrolls. apply in_map. exact Hin. }
      rewrite (segment_pose_step prev next points (scroll k) Hinc Hle).
      apply IH; [|exact Hin].
      apply strictly_increasing_from_cons in Hinc. apply Hinc.
Qed.

(** On the segment between two consecutive keyframes the piecewise pose is
    their linear interpolation. *)
Lemma segment_pose_between (points : list Keyframe) :
  forall prev i a b t,
    strictly_increasing_from (scroll prev) (scrolls points) = true ->
    nth_error (prev :: points) i = Some a ->
    nth_error (prev :: points) (S i) = Some b ->
    scroll a <= t -> t <= scroll b ->
    segment_pose prev points t
    =p= lerp_pose a b ((t - scroll a) / (scroll b - scroll a)).
Proof.
  induction points as [|next points IH]; intros prev i a b t Hinc Ha Hb Hat Htb.
  - destruct i; discriminate.
  - destruct i as [|i].
    + simpl in Ha, Hb. injection Ha as <-. injection Hb as <-.
      simpl. apply Qle_bool_iff in Htb. rewrite Htb. reflexivity.
    + simpl in Ha, Hb.
      assert (Hinc' := Hinc).
      apply strictly_increasing_from_cons in Hinc'. destruct Hinc' as [Hlt Hinc'].
      assert (Hna : scroll next <= scroll a).
      { destruct i as [|i]; simpl in Ha.
        - injection Ha as <-. apply Qle_refl.
        - apply Qlt_le_weak. apply strictly_increasing_from_lt with (scrolls points).
          + exact Hinc'.
          + unfold scrolls. apply in_map. eapply nth_error_In. eassumption. }
      rewrite (segment_pose_step prev next points t Hinc).
      * apply IH with i; assumption.
      * apply Qle_trans with (scroll a); assumption.
Qed.

(** ** Children of a timeline built from a path *)

Lemma children_for_cons_inv (prev : Keyframe) (points : list Keyframe) (c : Child)
    (cs : list Child) :
  children_for prev points (c :: cs) ->
  exists next points' l cs',
    points = next :: points' /\ cs = l :: cs' /\
    tween c = position_tween prev next /\ start_ok (startValues c) (pos prev) /\
    tween l = lookAt_tween prev next /\ start_ok (startValues l) (look prev) /\
    children_for next points' cs'.
Proof.
  destruct points as [|next points']; simpl; [tauto|].
  destruct cs as [|l cs']; [tauto|].
  intros [H1 [H2 [H3 [H4 H5]]]].
  exists next, points', l, cs'. tauto.
Qed.

Lemma children_for_starts (points : list Keyframe) :
  forall prev cs,
    strictly_increasing_from (scroll prev) (scrolls points) = true ->
    children_for prev points cs ->
    Forall (fun c => scroll prev <= startTime (tween c)) cs.
Proof.
  induction points as [|next points IH]; intros prev cs Hinc Hcs.
  - destruct cs; [constructor|contradiction].
  - destruct cs as [|p [|l cs]]; try contradiction.
    destruct Hcs as [Hp [_ [Hl [_ Hcs]]]].
    apply strictly_increasing_from_cons in Hinc. destruct Hinc as [Hlt Hinc].
    constructor; [rewrite Hp; apply Qle_refl|].
    constructor; [rewrite Hl; apply Qle_refl|].
    eapply Forall_impl; [|apply (IH next cs Hinc Hcs)].
    simpl. intros c Hc. apply Qle_trans with (scroll next); [|exact Hc].
    apply Qlt_le_weak. exact Hlt.
Qed.

Lemma tween_end_position (prev next : Keyframe) :
  tween_end (position_tween prev next) == scroll next.
Proof. unfold tween_end, position_tween. simpl. ring. Qed.

Lemma tween_end_lookAt (prev next : Keyframe) :
  tween_end (lookAt_tween prev next) == scroll next.
Proof. unfold tween_end, lookAt_tween. simpl. ring. Qed.

(** ** Rendering one child *)

Lemma render_child_reached (t : Q) (c : Child) (cam : CameraState) (v : Vec3) :
  startTime (tween c) <= t ->
  start_ok (startValues c) v ->
  (startValues c = None -> read_target (tween c) cam =v= v) ->
  exists s, s =v= v /\
    render_child t c cam
    = (mkChild (tween c) (Some s),
       write_target (tween c) (lerp3 s (dest (tween c)) (ratio_at (tween c) t)) cam).
Proof.
  intros Ht Hok Hread. unfold render_child.
  destruct (startValues c) as [s|] eqn:E.
  - exists s. split; [exact Hok|reflexivity].
  - apply Qltb_false in Ht. rewrite Ht.
    exists (read_target (tween c) cam). split; [apply Hread; reflexivity|reflexivity].
Qed.

Lemma render_child_initialised (t : Q) (c : Child) (cam : CameraState) (s : Vec3) :
  startValues c = Some s ->
  render_child t c cam
  = (c, write_target (tween c) (lerp3 s (dest (tween c)) (ratio_at (tween c) t)) cam).
Proof.
  intro E. unfold render_child. rewrite E. destruct c as [tw sv]. simpl in *.
  rewrite E. reflexivity.
Qed.

Lemma render_child_unreached (t : Q) (c : Child) (cam : CameraState) :
  startValues c = None -> t < startTime (tween c) ->
  render_child t c cam = (c, cam).
Proof.
  intros E Ht. unfold render_child. rewrite E.
  apply Qltb_true in Ht. rewrite Ht. reflexivity.
Qed.

(** ** The forward pass *)

Lemma render_forward_before (cs : list Child) (t : Q) (cam : CameraState) :
  Forall (fun c => t < startTime (tween c)) cs ->
  render_forward t cs cam = (cs, cam).
Proof.
  induction 1 as [|c cs Hc _ IH]; simpl; [reflexivity|].
  apply Qle_bool_false in Hc. rewrite Hc, IH. reflexivity.
Qed.

Lemma Forall_starts_after (cs : list Child) (a t : Q) :
  t < a ->
  Forall (fun c => a <= startTime (tween c)) cs ->
  Forall (fun c => t < startTime (tween c)) cs.
Proof.
  intros Hta H. eapply Forall_impl; [|exact H].
  simpl. intros c Hc. apply Qlt_le_trans with a; assumption.
Qed.

Lemma render_forward_segment (points : list Keyframe) :
  forall prev cs cam t,
    strictly_increasing_from (scroll prev) (scrolls points) = true ->
    children_for prev points cs ->
    scroll prev <= t ->
    (points = [] -> current cam =p= pose_of prev) ->
    (forall p cs', cs = p :: cs' -> startValues p = None ->
                   position (current cam) =v= pos prev) ->
    exists cs' cam',
      render_forward t cs cam = (cs', cam') /\
      children_for prev points cs' /\
      uninitialised_after t cs' /\
      current cam' =p= segment_pose prev points t /\
      (aimed_from cam = position (current cam) \/ points <> [] ->
       aimed_from cam' = position (current cam')).
Proof.
  induction points as [|next points IH]; intros prev cs cam t Hinc Hcs Ht Hnil Hhead.
  - destruct cs; [|contradiction].
    exists [], cam. split; [reflexivity|]. split; [exact I|].
    split; [constructor|]. split; [apply Hnil; reflexivity|].
    intros [H|H]; [exact H|contradiction].
  - destruct cs as [|p [|l cs]]; try contradiction.
    destruct Hcs as [Hp [Hps [Hl [Hls Hcs]]]].
    assert (Hinc' := Hinc).
    apply strictly_increasing_from_cons in Hinc'. destruct Hinc' as [Hlt Hinc'].
    destruct (render_child_reached t p cam (pos prev)) as [s [Hs Ep]].
    { rewrite Hp. exact Ht. }
    { exact Hps. }
    { intro En. rewrite Hp. simpl. apply (Hhead p (l :: cs) eq_refl En). }
    set (cam1 := write_target (tween p)
                   (lerp3 s (dest (tween p)) (ratio_at (tween p) t)) cam) in *.
    destruct (render_child_reached t l cam1 (look prev)) as [s' [Hs' El]].
    { rewrite Hl. exact Ht. }
    { exact Hls. }
    { intros _. rewrite Hl. simpl. reflexivity. }
    set (cam2 := write_target (tween l)
                   (lerp3 s' (dest (tween l)) (ratio_at (tween l) t)) cam1) in *.
    assert (Hle_p : Qle_bool (startTime (tween p)) t = true)
      by (apply Qle_bool_iff; rewrite Hp; exact Ht).
    assert (Hle_l : Qle_bool (startTime (tween l)) t = true)
      by (apply Qle_bool_iff; rewrite Hl; exact Ht).
    assert (Hdur : 0 < scroll next - scroll prev) by lra.
    assert (Hcam2 : current cam2
                    = mkPose (lerp3 s (pos next) (ratio_at (position_tween prev next) t))
                             (lerp3 s' (look next) (ratio_at (lookAt_tween prev next) t))).
    { unfold cam2, cam1. rewrite Hl, Hp. reflexivity. }
    assert (Haim2 : aimed_from cam2 = position (current cam2)).
    { unfold cam2, cam1. rewrite Hl, Hp. reflexivity. }
    destruct (Qlt_le_dec t (scroll next)) as [Hbefore|Hpast].
    + (* the playhead is inside this segment *)
      exists (mkChild (tween p) (Some s) :: mkChild (tween l) (Some s') :: cs), cam2.
      assert (Hrest : render_forward t cs cam2 = (cs, cam2)).
      { apply render_forward_before. apply Forall_starts_after with (scroll next).
        - exact Hbefore.
        - apply children_for_starts with points; assumption. }
      split; [|split; [|split; [|split]]].
      * simpl. rewrite Hle_p, Ep. simpl. rewrite Hle_l, El, Hrest. reflexivity.
      * simpl. tauto.
      * constructor; [simpl; discriminate|]. constructor; [simpl; discriminate|].
        apply Forall_forall. intros c Hc _.
        apply Qlt_le_trans with (scroll next); [exact Hbefore|].
        assert (HF := children_for_starts points next cs Hinc' Hcs).
        rewrite Forall_forall in HF. apply HF. exact Hc.
      * rewrite Hcam2. simpl.
        assert (Hq : Qle_bool t (scroll next) = true)
          by (apply Qle_bool_iff, Qlt_le_weak; exact Hbefore).
        rewrite Hq.
        rewrite !ratio_at_inside; simpl; try lra;
          try (unfold tween_end; simpl; lra).
        split; simpl; apply lerp3_Proper; try reflexivity; assumption.
      * intros _. exact Haim2.
    + (* the playhead is past this segment *)
      assert (Hr1 : ratio_at (position_tween prev next) t == 1).
      { apply ratio_at_done; [exact Hdur|]. rewrite tween_end_position. exact Hpast. }
      assert (Hr2 : ratio_at (lookAt_tween prev next) t == 1).
      { apply ratio_at_done; [exact Hdur|]. rewrite tween_end_lookAt. exact Hpast. }
      assert (Hpose2 : current cam2 =p= pose_of next).
      { rewrite Hcam2. split; simpl; apply lerp3_1; assumption. }
      destruct (IH next cs cam2 t Hinc' Hcs Hpast)
        as [cs' [cam' [E [Hcs' [Hun [Hpose Haim]]]]]].
      { intros _. exact Hpose2. }
      { intros _ _ _ _. apply Hpose2. }
      exists (mkChild (tween p) (Some s) :: mkChild (tween l) (Some s') :: cs'), cam'.
      split; [|split; [|split; [|split]]].
      * simpl. rewrite Hle_p, Ep. simpl. rewrite Hle_l, El, E. reflexivity.
      * simpl. tauto.
      * constructor; [simpl; discriminate|]. constructor; [simpl; discriminate|].
        exact Hun.
      * rewrite Hpose. symmetry. apply segment_pose_step; assumption.
      * intros _. apply Haim. left. exact Haim2.
Qed.

(** ** The backward pass *)

Lemma render_backward_children (t : Q) (cs : list Child) :
  forall cam, uninitialised_after t cs -> fst (render_backward t cs cam) = cs.
Proof.
  induction cs as [|c cs IH]; intros cam H; [reflexivity|].
  inversion H as [|c' cs' Hc Hcs]; subst. simpl.
  specialize (IH cam Hcs).
  destruct (render_backward t cs cam) as [cs1 cam1]. simpl in IH. subst cs1.
  destruct (Qle_bool t (tween_end (tween c))); [|reflexivity].
  destruct (startValues c) as [s|] eqn:E.
  - rewrite (render_child_initialised t c cam1 s E). reflexivity.
  - rewrite (render_child_unreached t c cam1 E (Hc eq_refl)). reflexivity.
Qed.

Lemma final_scroll_ge (points : list Keyframe) :
  forall prev, strictly_increasing_from (scroll prev) (scrolls points) = true ->
    scroll prev <= final_scroll prev points.
Proof.
  induction points as [|next points IH]; intros prev Hinc; simpl.
  - apply Qle_refl.
  - apply strictly_increasing_from_cons in Hinc. destruct Hinc as [Hlt Hinc].
    apply Qle_trans with (scroll next); [apply Qlt_le_weak; exact Hlt|].
    apply IH. exact Hinc.
Qed.

Lemma initialised_when_reached (t : Q) (c : Child) (v : Vec3) :
  (startValues c = None -> t < startTime (tween c)) ->
  startTime (tween c) <= t ->
  start_ok (startValues c) v ->
  exists s, startValues c = Some s /\ s =v= v.
Proof.
  intros Hun Ht Hok. destruct (startValues c) as [s|].
  - exists s. split; [reflexivity|exact Hok].
  - exfalso. apply (Qlt_not_le _ _ (Hun eq_refl) Ht).
Qed.

Lemma render_backward_segment (points : list Keyframe) :
  forall prev cs cam t,
    strictly_increasing_from (scroll prev) (scrolls points) = true ->
    children_for prev points cs ->
    uninitialised_after t cs ->
    points <> [] ->
    scroll prev <= t -> t <= final_scroll prev points ->
    current (snd (render_backward t cs cam)) =p= segment_pose prev points t.
Proof.
  induction points as [|next points IH];
    intros prev cs cam t Hinc Hcs Hun Hne Ht Hfinal; [contradiction|].
  destruct cs as [|p [|l cs]]; try contradiction.
  destruct Hcs as [Hp [Hps [Hl [Hls Hcs]]]].
  assert (Hinc' := Hinc).
  apply strictly_increasing_from_cons in Hinc'. destruct Hinc' as [Hlt Hinc'].
  inversion Hun as [|? ? Hunp Hun1]; subst.
  inversion Hun1 as [|? ? Hunl Huncs]; subst.
  simpl render_backward.
  destruct (render_backward t cs cam) as [cs1 cam1] eqn:Etail.
  rewrite (Qleb_comp t t (Qeq_refl t) _ _ (eq_ind_r (fun tw => tween_end tw == scroll next)
             (tween_end_lookAt prev next) Hl)).
  rewrite (Qleb_comp t t (Qeq_refl t) _ _ (eq_ind_r (fun tw => tween_end tw == scroll next)
             (tween_end_position prev next) Hp)).
  destruct (Qle_bool t (scroll next)) eqn:E.
  - apply Qle_bool_iff in E.
    destruct (initialised_when_reached t p (pos prev) Hunp) as [s [Es Hs]];
      [rewrite Hp; exact Ht|exact Hps|].
    destruct (initialised_when_reached t l (look prev) Hunl) as [s' [Es' Hs']];
      [rewrite Hl; exact Ht|exact Hls|].
    rewrite (render_child_initialised t l cam1 s' Es').
    rewrite (render_child_initialised t p _ s Es).
    rewrite Hp, Hl. simpl.
    assert (Hq : Qle_bool t (scroll next) = true) by (apply Qle_bool_iff; exact E).
    rewrite Hq.
    rewrite !ratio_at_inside; simpl; try lra;
      try (unfold tween_end; simpl; lra).
    split; simpl; apply lerp3_Proper; try reflexivity; assumption.
  - apply Qle_bool_false in E. simpl.
    assert (Hq : Qle_bool t (scroll next) = false) by (apply Qle_bool_false; exact E).
    rewrite Hq.
    replace cam1 with (snd (render_backward t cs cam)) by (rewrite Etail; reflexivity).
    apply IH; try assumption.
    + intros ->. simpl in Hfinal. apply (Qlt_not_le _ _ E Hfinal).
    + apply Qlt_le_weak. exact E.
Qed.

(** ** Duration of the timeline *)

Lemma totalDuration_nonneg (cs : list Child) : 0 <= totalDuration cs.
Proof.
  induction cs as [|c cs IH]; simpl; [apply Qle_refl|].
  apply Qle_trans with (totalDuration cs); [exact IH|apply Q.le_max_r].
Qed.

Lemma totalDuration_final (points : list Keyframe) :
  forall prev cs,
    strictly_increasing_from (scroll prev) (scrolls points) = true ->
    children_for prev points cs ->
    points <> [] ->
    0 <= scroll prev ->
    totalDuration cs == final_scroll prev points.
Proof.
  induction points as [|next points IH]; intros prev cs Hinc Hcs Hne H0;
    [contradiction|].
  destruct cs as [|p [|l cs]]; try contradiction.
  destruct Hcs as [Hp [_ [Hl [_ Hcs]]]].
  apply strictly_increasing_from_cons in Hinc. destruct Hinc as [Hlt Hinc].
  assert (Hge := final_scroll_ge points next Hinc).
  assert (Htail : totalDuration cs <= final_scroll next points).
  { destruct points as [|next' points].
    - destruct cs; [|contradiction]. simpl. lra.
    - rewrite (IH next cs Hinc Hcs) by (try discriminate; lra). apply Qle_refl. }
  assert (Htail' : points <> [] -> totalDuration cs == final_scroll next points).
  { intro Hne'. apply (IH next cs Hinc Hcs Hne'). lra. }
  change (Qmax (tween_end (tween p)) (Qmax (tween_end (tween l)) (totalDuration cs))
          == final_scroll next points).
  rewrite Hp, Hl.
  assert (E1 := tween_end_position prev next).
  assert (E2 := tween_end_lookAt prev next).
  set (e1 := tween_end (position_tween prev next)) in *.
  set (e2 := tween_end (lookAt_tween prev next)) in *.
  set (d := totalDuration cs) in *.
  set (f := final_scroll next points) in *.
  assert (Hf : points = [] -> f == scroll next /\ d == 0).
  { intros ->. subst f d. destruct cs; [|contradiction]. simpl. split; reflexivity. }
  destruct (Q.max_spec_le e2 d) as [[Ha Hb]|[Ha Hb]];
    destruct (Q.max_spec_le e1 (Qmax e2 d)) as [[Hc Hd]|[Hc Hd]];
    rewrite Hd; try rewrite Hb;
    destruct points as [|next' points'];
      try (destruct (Hf eq_refl)); try (assert (d == f) by (apply Htail'; discriminate));
      lra.
Qed.

Lemma totalDuration_children_for (points : list Keyframe) :
  forall prev cs cs',
    children_for prev points cs -> children_for prev points cs' ->
    totalDuration cs = totalDuration cs'.
Proof.
  induction points as [|next points IH]; intros prev cs cs' H H'.
  - destruct cs, cs'; try contradiction. reflexivity.
  - destruct cs as [|p [|l cs]]; try contradiction.
    destruct cs' as [|p' [|l' cs']]; try contradiction.
    destruct H as [Hp [_ [Hl [_ H]]]]. destruct H' as [Hp' [_ [Hl' [_ H']]]].
    simpl. rewrite Hp, Hl, Hp', Hl', (IH next cs cs' H H'). reflexivity.
Qed.

Lemma children_for_initial (points : list Keyframe) :
  forall prev,
    children_for prev points (map (fun tw => mkChild tw None) (path_tweens prev points)).
Proof.
  induction points as [|next points IH]; intro prev; simpl; [exact I|].
  repeat split; try reflexivity. apply IH.
Qed.

(** ** Placing the playhead keeps the timeline in step with the path *)

Section Playhead.

Variables (first : Keyframe) (points : list Keyframe).
Hypothesis increasing :
  strictly_increasing_from (scroll first) (scrolls points) = true.
Hypothesis starts_at_zero : scroll first == 0.

Lemma uninitialised_after_from (t : Q) (cs : list Child) :
  uninitialised_after t cs -> uninitialised_from t cs.
Proof.
  intro H. eapply Forall_impl; [|exact H].
  simpl. intros c Hc E. apply Qlt_le_weak. exact (Hc E).
Qed.

Lemma uninitialised_from_after (t t' : Q) (cs : list Child) :
  t' < t -> uninitialised_from t cs -> uninitialised_after t' cs.
Proof.
  intros Hlt H. eapply Forall_impl; [|exact H].
  simpl. intros c Hc E. apply Qlt_le_trans with t; [exact Hlt|exact (Hc E)].
Qed.

Lemma timeline_inv_initial :
  timeline_inv first points (initial_timeline (first :: points))
    (initial_pose (first :: points)).
Proof.
  unfold timeline_inv, initial_timeline, initial_pose. simpl.
  split; [apply children_for_initial|].
  split.
  { assert (H := children_for_starts points first _ increasing
                   (children_for_initial points first)).
    eapply Forall_impl; [|exact H].
    simpl. intros c Hc _. rewrite <- starts_at_zero. exact Hc. }
  split; [apply Qle_refl|]. split; [apply totalDuration_nonneg|].
  symmetry. apply segment_pose_at_start; [exact increasing|].
  symmetry. exact starts_at_zero.
Qed.

Lemma seek_keeps_inv (tl : Timeline) (cam : CameraState) (t : Q) :
  timeline_inv first points tl (current cam) ->
  timeline_inv first points (fst (seek t tl cam)) (current (snd (seek t tl cam))) /\
  time (fst (seek t tl cam)) == clamp 0 (totalDuration (children tl)) t.
Proof.
  intros [Hcs [Hun [H0 [HD Hpose]]]]. unfold seek.
  set (D := totalDuration (children tl)) in *.
  set (t' := clamp 0 D t).
  assert (HD0 : 0 <= D) by apply totalDuration_nonneg.
  destruct (clamp_bounds 0 D t HD0) as [Ht0 HtD]. fold t' in Ht0, HtD.
  destruct (Qeq_bool (time tl) t') eqn:Esame.
  { (* the playhead is there already *)
    apply Qeq_bool_iff in Esame. simpl. split; [|exact Esame].
    split; [exact Hcs|]. split; [exact Hun|]. split; [exact H0|].
    split; [exact HD|exact Hpose]. }
  destruct (Qle_bool (time tl) t') eqn:Edir.
  - (* forward *)
    apply Qle_bool_iff in Edir.
    destruct (render_forward_segment points first (children tl) cam t')
      as [cs' [cam' [E [Hcs' [Hun' [Hpose' _]]]]]].
    + exact increasing.
    + exact Hcs.
    + rewrite starts_at_zero. exact Ht0.
    + intros ->. exact Hpose.
    + intros p cs1 Ecs En.
      assert (Hp : time tl <= startTime (tween p)).
      { unfold uninitialised_from in Hun. rewrite Ecs in Hun.
        inversion Hun; subst. auto. }
      rewrite Ecs in Hcs.
      destruct (children_for_cons_inv _ _ _ _ Hcs)
        as [next [points' [l [cs2 [_ [_ [Etw _]]]]]]].
      rewrite Etw in Hp. simpl in Hp.
      assert (Ht : time tl == scroll first) by lra.
      destruct Hpose as [Hpos _]. rewrite Hpos.
      apply (segment_pose_at_start points first (time tl) increasing Ht).
    + rewrite E. simpl. split; [|reflexivity].
      split; [exact Hcs'|]. split; [apply uninitialised_after_from; exact Hun'|].
      split; [exact Ht0|]. split; [|exact Hpose'].
      simpl. rewrite (totalDuration_children_for points first cs' (children tl) Hcs' Hcs).
      exact HtD.
  - (* backward *)
    apply Qle_bool_false in Edir.
    assert (Hun' : uninitialised_after t' (children tl))
      by (apply uninitialised_from_after with (time tl); assumption).
    assert (Hne : points <> []).
    { intros ->. subst t' D.
      destruct (children tl); [|contradiction]. simpl in *. lra. }
    assert (Hfin : D == final_scroll first points).
    { apply totalDuration_final; try assumption. rewrite starts_at_zero. apply Qle_refl. }
    assert (Hc := render_backward_children t' (children tl) cam Hun').
    assert (Hp := render_backward_segment points first (children tl) cam t'
                    increasing Hcs Hun' Hne).
    destruct (render_backward t' (children tl) cam) as [cs' cam'].
    simpl in Hc, Hp. subst cs'. simpl. split; [|reflexivity].
    split; [exact Hcs|]. split; [apply uninitialised_after_from; exact Hun'|].
    split; [exact Ht0|]. split; [exact HtD|].
    apply Hp; [rewrite starts_at_zero; exact Ht0|rewrite <- Hfin; exact HtD].
Qed.

(** The pose after a seek is the piecewise pose at the clamped time. *)
Lemma seek_pose (tl : Timeline) (cam : CameraState) (t : Q) :
  timeline_inv first points tl (current cam) ->
  current (snd (seek t tl cam))
  =p= segment_pose first points (clamp 0 (totalDuration (children tl)) t).
Proof.
  intro H. destruct (seek_keeps_inv tl cam t H) as [[_ [_ [_ [_ Hp]]]] Ht].
  rewrite Hp. apply segment_pose_compat. exact Ht.
Qed.

Lemma timeline_inv_duration (tl : Timeline) (cam : Pose) :
  timeline_inv first points tl cam ->
  totalDuration (children tl)
  = totalDuration (children (initial_timeline (first :: points))).
Proof.
  intros [Hcs _]. apply totalDuration_children_for with points first.
  - exact Hcs.
  - apply children_for_initial.
Qed.

Lemma interpolate_piecewise (fraction : Q) :
  interpolate (first :: points) fraction
  =p= segment_pose first points (playhead (first :: points) fraction).
Proof.
  unfold interpolate, scrub.
  apply (seek_pose _ (initial_camera (first :: points)) _ timeline_inv_initial).
Qed.

Lemma reachable_inv (w h : Q) (app : App) :
  reachable (first :: points) w h app ->
  timeline_inv first points (tl app) (pose (camera app)).
Proof.
  induction 1 as [|fraction app Hr IH|w' h' app Hr IH].
  - apply timeline_inv_initial.
  - unfold scroll_update. simpl.
    assert (H := seek_keeps_inv (tl app) (state (camera app))
                   (trigger_progress fraction * totalDuration (children (tl app))) IH).
    unfold scrub.
    destruct (seek _ (tl app) (state (camera app))) as [tl' state']. simpl in *.
    apply H.
  - exact IH.
Qed.

Lemma scroll_update_pose (fraction : Q) (app : App) :
  timeline_inv first points (tl app) (pose (camera app)) ->
  pose (camera (scroll_update fraction app))
  =p= segment_pose first points (playhead (first :: points) fraction).
Proof.
  intro H. unfold scroll_update. simpl.
  assert (Hp := seek_pose (tl app) (state (camera app))
                  (trigger_progress fraction * totalDuration (children (tl app))) H).
  unfold scrub.
  destruct (seek _ (tl app) (state (camera app))) as [tl' state']. simpl in *.
  unfold pose. simpl.
  rewrite Hp. unfold playhead. rewrite (timeline_inv_duration _ _ H). reflexivity.
Qed.

End Playhead.

(** ** The interpolator on a freshly built tour *)

Lemma interpolate_forward (first : Keyframe) (points : list Keyframe) (fraction : Q) :
  strictly_increasing_from (scroll first) (scrolls points) = true ->
  0 <= scroll first ->
  scroll first <= playhead (first :: points) fraction ->
  interpolate (first :: points) fraction
  =p= segment_pose first points (playhead (first :: points) fraction).
Proof.
  intros Hinc Hnn Hfrom. unfold interpolate, scrub, seek.
  fold (playhead (first :: points) fraction).
  set (t' := playhead (first :: points) fraction) in *.
  assert (H0 : 0 <= t').
  { apply (clamp_bounds 0 _ _ (totalDuration_nonneg _)). }
  change (time (initial_timeline (first :: points))) with 0.
  destruct (Qeq_bool 0 t') eqn:Esame.
  { (* the playhead stays at 0, where the first keyframe is *)
    apply Qeq_bool_iff in Esame. simpl. symmetry.
    apply segment_pose_at_start; [exact Hinc|]. lra. }
  apply Qle_bool_iff in H0. rewrite H0.
  destruct (render_forward_segment points first
              (children (initial_timeline (first :: points)))
              (initial_camera (first :: points)) t' Hinc)
    as [cs' [cam' [E [_ [_ [Hpose _]]]]]].
  - apply children_for_initial.
  - exact Hfrom.
  - intros _. reflexivity.
  - intros _ _ _ _. reflexivity.
  - rewrite E. exact Hpose.
Qed.

Lemma last_scroll_final (first : Keyframe) (points : list Keyframe) :
  last_scroll (first :: points) = Some (final_scroll first points).
Proof.
  unfold last_scroll, scrolls. revert first.
  induction points as [|next points IH]; intro first; [reflexivity|].
  specialize (IH next). simpl in *.
  destruct (rev (map scroll points) ++ [scroll next]) as [|q l] eqn:E;
    [destruct (rev (map scroll points)); discriminate|].
  simpl in *. exact IH.
Qed.

Lemma nth_scroll_bounds (points : list Keyframe) :
  forall first i k,
    strictly_increasing_from (scroll first) (scrolls points) = true ->
    nth_error (first :: points) i = Some k ->
    scroll first <= scroll k /\ scroll k <= final_scroll first points.
Proof.
  induction points as [|next points IH]; intros first i k Hinc Hk.
  - destruct i as [|[|i]]; try discriminate. injection Hk as <-.
    simpl. split; apply Qle_refl.
  - assert (Hinc' := Hinc).
    apply strictly_increasing_from_cons in Hinc'. destruct Hinc' as [Hlt Hinc'].
    destruct i as [|i]; simpl in Hk.
    + injection Hk as <-. split; [apply Qle_refl|].
      apply (final_scroll_ge (next :: points) first Hinc).
    + destruct (IH next i k Hinc' Hk) as [H1 H2]. simpl. split; [lra|exact H2].
Qed.

Lemma final_scroll_nth (points : list Keyframe) :
  forall first k,
    nth_error (first :: points) (List.length points) = Some k ->
    scroll k = final_scroll first points.
Proof.
  induction points as [|next points IH]; intros first k Hk.
  - simpl in Hk. injection Hk as <-. reflexivity.
  - simpl in Hk. simpl. apply IH. exact Hk.
Qed.

Lemma playhead_scaled (first : Keyframe) (points : list Keyframe) (p : Q) :
  strictly_increasing_from (scroll first) (scrolls points) = true ->
  points <> [] -> 0 <= scroll first -> 0 <= p -> p <= 1 ->
  playhead (first :: points) p == p * final_scroll first points.
Proof.
  intros Hinc Hne H0 Hp0 Hp1. unfold playhead, trigger_progress.
  assert (HD := totalDuration_final points first _ Hinc
                  (children_for_initial points first) Hne H0).
  change (children (initial_timeline (first :: points)))
    with (map (fun tw => mkChild tw None) (path_tweens first points)).
  set (D := totalDuration _) in *.
  assert (HD0 : 0 <= D) by apply totalDuration_nonneg.
  rewrite (clamp_inside 0 1 p Hp0 Hp1).
  rewrite clamp_inside; [rewrite HD; reflexivity| |].
  - apply Qmult_le_0_compat; assumption.
  - rewrite <- (Qmult_1_l D) at 2. apply Qmult_le_compat_r; assumption.
Qed.

Lemma camera_path_ok_inv (path : list Keyframe) :
  camera_path_ok path = true ->
  exists first points,
    path = first :: points /\ points <> [] /\
    strictly_increasing_from (scroll first) (scrolls points) = true /\
    scroll first == 0 /\ final_scroll first points == 1.
Proof.
  unfold camera_path_ok. intro H.
  apply andb_true_iff in H. destruct H as [H Hlast].
  apply andb_true_iff in H. destruct H as [H Hfirst].
  apply andb_true_iff in H. destruct H as [Hlen Hinc].
  destruct path as [|first [|next points]]; try discriminate.
  exists first, (next :: points).
  split; [reflexivity|]. split; [discriminate|]. split; [exact Hinc|].
  split.
  - simpl in Hfirst. apply Qeq_bool_iff. exact Hfirst.
  - rewrite last_scroll_final in Hlast. simpl in Hlast.
    apply Qeq_bool_iff. exact Hlast.
Qed.

(** On a path meeting the invariant the playhead is the clamped progress. *)
Lemma playhead_unit (first : Keyframe) (points : list Keyframe) (p : Q) :
  strictly_increasing_from (scroll first) (scrolls points) = true ->
  points <> [] -> scroll first == 0 -> final_scroll first points == 1 ->
  0 <= p -> p <= 1 ->
  playhead (first :: points) p == p.
Proof.
  intros Hinc Hne H0 H1 Hp0 Hp1.
  rewrite playhead_scaled; try assumption; [|rewrite H0; apply Qle_refl].
  rewrite H1. ring.
Qed.

Lemma segment_pose_level (c : Q) (points : list Keyframe) :
  forall prev t,
    Forall (fun k => y (pos k) == c /\ y (look k) == c) (prev :: points) ->
    y (position (segment_pose prev points t)) == c /\
    y (lookAt (segment_pose prev points t)) == c.
Proof.
  induction points as [|next points IH]; intros prev t H.
  - inversion H; subst. simpl. tauto.
  - inversion H as [|? ? [Hp Hl] H']; subst.
    simpl. destruct (Qle_bool t (scroll next)).
    + inversion H' as [|? ? [Hp' Hl'] _]; subst. simpl. unfold lerp.
      rewrite Hp, Hl, Hp', Hl'. split; ring.
    + apply IH. exact H'.
Qed.

(** Between two consecutive keyframes the interpolator follows the segment
    joining them, the timeline time being the progress scaled by the scroll
    value of the last keyframe. *)
Lemma interpolate_between (first : Keyframe) (points : list Keyframe)
    (i : nat) (a b : Keyframe) (p : Q) :
  strictly_increasing_from (scroll first) (scrolls points) = true ->
  0 <= scroll first ->
  nth_error (first :: points) i = Some a ->
  nth_error (first :: points) (S i) = Some b ->
  0 <= p -> p <= 1 ->
  scroll a <= p * final_scroll first points ->
  p * final_scroll first points <= scroll b ->
  interpolate (first :: points) p
  =p= lerp_pose a b ((p * final_scroll first points - scroll a) / (scroll b - scroll a)).
Proof.
  intros Hinc H0 Ha Hb Hp0 Hp1 Hlo Hhi.
  assert (Hne : points <> []) by (intros ->; destruct i; discriminate).
  assert (Hplay := playhead_scaled first points p Hinc Hne H0 Hp0 Hp1).
  destruct (nth_scroll_bounds points first i a Hinc Ha) as [Hfa _].
  rewrite interpolate_forward; [|exact Hinc|exact H0|rewrite Hplay; lra].
  rewrite (segment_pose_compat points first _ _ Hplay).
  apply segment_pose_between with i; assumption.
Qed.

Lemma path_head (path : list Keyframe) (first : Keyframe) :
  hd_error path = Some first -> exists points, path = first :: points.
Proof.
  destruct path as [|k points]; [discriminate|].
  intro H. injection H as ->. exists points. reflexivity.
Qed.

(** C1, as the code has it.  The timeline is stretched over the whole scroll
    range, so progress [p] stands for the timeline time [p * L], [L] being
    the scroll value of the last keyframe.  For a path whose scroll values
    increase strictly from a first value that is not negative, and [p] in
    [0, 1] with [path[i].t <= p * L <= path[i+1].t], the pose is the
    component-wise linear interpolation of the two keyframes with
    [u = (p * L - path[i].t) / (path[i+1].t - path[i].t)]; when the last
    keyframe is at 1, as in [CAMERA_PATH], this is the design's formula with
    [u = (p - path[i].t) / (path[i+1].t - path[i].t)].  On [CAMERA_PATH]
    progress 0.075 gives position (0, 1.6, 9) and look target (0, 1.6, 0);
    on the three-keyframe scenario path, which ends at 0.35, these are
    reached at progress 0.075 / 0.35, and position (-2, 1.6, 2) at
    0.25 / 0.35. *)
Theorem C1_segment_interpolation :
  (forall path first L i a b p,
      strictly_increasing (scrolls path) = true ->
      hd_error path = Some first -> 0 <= scroll first ->
      last_scroll path = Some L ->
      nth_error path i = Some a -> nth_error path (S i) = Some b ->
      0 <= p -> p <= 1 ->
      scroll a <= p * L -> p * L <= scroll b ->
      interpolate path p
      =p= lerp_pose a b ((p * L - scroll a) / (scroll b - scroll a))) /\
  (forall path first L i a b p,
      strictly_increasing (scrolls path) = true ->
      hd_error path = Some first -> 0 <= scroll first ->
      last_scroll path = Some L -> L == 1 ->
      nth_error path i = Some a -> nth_error path (S i) = Some b ->
      scroll a <= p -> p <= scroll b ->
      interpolate path p
      =p= lerp_pose a b ((p - scroll a) / (scroll b - scroll a))) /\
  interpolate CAMERA_PATH 0.075 =p= mkPose (mkVec3 0 1.6 9.0) (mkVec3 0 1.6 0) /\
  interpolate scenario_path (0.075 / 0.35)
    =p= mkPose (mkVec3 0 1.6 9.0) (mkVec3 0 1.6 0) /\
  position (interpolate scenario_path (0.25 / 0.35)) =v= mkVec3 (-2) 1.6 2.0.
Proof.
  assert (General : forall path first L i a b p,
      strictly_increasing (scrolls path) = true ->
      hd_error path = Some first -> 0 <= scroll first ->
      last_scroll path = Some L ->
      nth_error path i = Some a -> nth_error path (S i) = Some b ->
      0 <= p -> p <= 1 ->
      scroll a <= p * L -> p * L <= scroll b ->
      interpolate path p
      =p= lerp_pose a b ((p * L - scroll a) / (scroll b - scroll a))).
  { intros path first L i a b p Hinc Hhd H0 HL Ha Hb Hp0 Hp1 Hlo Hhi.
    destruct (path_head path first Hhd) as [points ->].
    rewrite last_scroll_final in HL. injection HL as <-.
    apply interpolate_between with (i := i); assumption. }
  split; [exact General|]. split.
  - intros path first L i a b p Hinc Hhd H0 HL HL1 Ha Hb Hlo Hhi.
    destruct (path_head path first Hhd) as [points ->].
    assert (HL' := HL). rewrite last_scroll_final in HL'. injection HL' as HL'.
    destruct (nth_scroll_bounds points first i a Hinc Ha) as [Hfa _].
    destruct (nth_scroll_bounds points first (S i) b Hinc Hb) as [_ Hbf].
    rewrite HL', HL1 in Hbf.
    assert (HpL : p * L == p) by (rewrite HL1; ring).
    rewrite (General (first :: points) first L i a b p Hinc Hhd H0 HL Ha Hb);
      try lra.
    apply lerp_pose_compat. rewrite HpL. reflexivity.
  - repeat split; vm_compute; reflexivity.
Qed.

Lemma C1_segment_interpolation_witness :
  interpolate CAMERA_PATH 0.2
  =p= lerp_pose (mkKeyframe (mkVec3 0 1.6 6) (mkVec3 0 1.6 0) 0.15)
                (mkKeyframe (mkVec3 0 1.6 0) (mkVec3 (-4) 1.6 (-2)) 0.25)
                ((0.2 - 0.15) / (0.25 - 0.15)).
Proof.
  apply (proj1 (proj2 C1_segment_interpolation) CAMERA_PATH
           (mkKeyframe (mkVec3 0 1.6 12) (mkVec3 0 1.6 0) 0) 1.0 1%nat).
  - reflexivity.
  - reflexivity.
  - discriminate.
  - reflexivity.
  - reflexivity.
  - reflexivity.
  - reflexivity.
  - discriminate.
  - discriminate.
Defined.

(** The design's worked scenario does not hold of the code: the
    three-keyframe path ends at 0.35, the timeline is stretched over the
    whole scroll range, and progress 0.075 lands at timeline time 0.02625,
    where the position is (0, 1.6, 10.95), not the midpoint (0, 1.6, 9) of
    the first segment. *)
Lemma C1_scenario_counterexample :
  strictly_increasing (scrolls scenario_path) = true /\
  0 <= 0.075 /\ 0.075 <= 0.15 /\
  position (interpolate scenario_path 0.075) =v= mkVec3 0 1.6 10.95 /\
  ~ position (interpolate scenario_path 0.075) =v= mkVec3 0 1.6 9.0 /\
  ~ interpolate scenario_path 0.075
    =p= lerp_pose (mkKeyframe (mkVec3 0 1.6 12) (mkVec3 0 1.6 0) 0)
                  (mkKeyframe (mkVec3 0 1.6 6) (mkVec3 0 1.6 0) 0.15)
                  ((0.075 - 0) / (0.15 - 0)).
Proof.
  split; [reflexivity|]. split; [discriminate|]. split; [discriminate|].
  split; [repeat split; vm_compute; reflexivity|]. split.
  - intros [_ [_ Hz]]. vm_compute in Hz. discriminate.
  - intros [[_ [_ Hz]] _]. vm_compute in Hz. discriminate.
Qed.

(** ** The pose does not jump *)

#[export] Instance dist3_Proper : Proper (Vec3_eq ==> Vec3_eq ==> Qeq) dist3.
Proof.
  intros a a' [Ha1 [Ha2 Ha3]] b b' [Hb1 [Hb2 Hb3]]. unfold dist3.
  rewrite Ha1, Ha2, Ha3, Hb1, Hb2, Hb3. reflexivity.
Qed.

#[export] Instance pose_dist_Proper : Proper (Pose_eq ==> Pose_eq ==> Qeq) pose_dist.
Proof.
  intros a a' [Ha1 Ha2] b b' [Hb1 Hb2]. unfold pose_dist.
  rewrite Ha1, Ha2, Hb1, Hb2. reflexivity.
Qed.

Lemma Qabs_diff_triangle (a b c : Q) : Qabs (a - c) <= Qabs (a - b) + Qabs (b - c).
Proof.
  setoid_replace (a - c) with ((a - b) + (b - c)) by ring.
  apply Qabs_triangle.
Qed.

Lemma dist3_triangle (a b c : Vec3) : dist3 a c <= dist3 a b + dist3 b c.
Proof.
  unfold dist3.
  assert (H1 := Qabs_diff_triangle (x a) (x b) (x c)).
  assert (H2 := Qabs_diff_triangle (y a) (y b) (y c)).
  assert (H3 := Qabs_diff_triangle (z a) (z b) (z c)).
  lra.
Qed.

Lemma pose_dist_triangle (a b c : Pose) :
  pose_dist a c <= pose_dist a b + pose_dist b c.
Proof.
  unfold pose_dist.
  assert (H1 := dist3_triangle (position a) (position b) (position c)).
  assert (H2 := dist3_triangle (lookAt a) (lookAt b) (lookAt c)).
  lra.
Qed.

Lemma pose_dist_sym (a b : Pose) : pose_dist a b == pose_dist b a.
Proof.
  unfold pose_dist, dist3.
  rewrite (Qabs_Qminus (x (position a))), (Qabs_Qminus (y (position a))),
    (Qabs_Qminus (z (position a))), (Qabs_Qminus (x (lookAt a))),
    (Qabs_Qminus (y (lookAt a))), (Qabs_Qminus (z (lookAt a))).
  reflexivity.
Qed.

Lemma lerp_diff (a b u u' : Q) :
  u <= u' -> Qabs (lerp a b u - lerp a b u') == (u' - u) * Qabs (a - b).
Proof.
  intro H. unfold lerp.
  setoid_replace (a + (b - a) * u - (a + (b - a) * u')) with ((u' - u) * (a - b)) by ring.
  rewrite Qabs_Qmult. rewrite (Qabs_pos (u' - u)) by lra. reflexivity.
Qed.

Lemma lerp_pose_dist (a b : Keyframe) (u u' : Q) :
  u <= u' ->
  pose_dist (lerp_pose a b u) (lerp_pose a b u')
  == (u' - u) * pose_dist (pose_of a) (pose_of b).
Proof.
  intro H. unfold pose_dist, dist3, lerp_pose, pose_of, lerp3.
  cbn [position lookAt x y z].
  rewrite (lerp_diff (x (pos a)) (x (pos b)) u u' H),
    (lerp_diff (y (pos a)) (y (pos b)) u u' H),
    (lerp_diff (z (pos a)) (z (pos b)) u u' H),
    (lerp_diff (x (look a)) (x (look b)) u u' H),
    (lerp_diff (y (look a)) (y (look b)) u u' H),
    (lerp_diff (z (look a)) (z (look b)) u u' H).
  ring.
Qed.

Lemma max_speed_nonneg (points : list Keyframe) :
  forall prev, 0 <= max_speed prev points.
Proof.
  induction points as [|next points IH]; intro prev; simpl; [apply Qle_refl|].
  apply Qle_trans with (max_speed next points); [apply IH|apply Q.le_max_r].
Qed.

(** Within a segment the pose moves at the segment's rate. *)
Lemma lerp_pose_rate (a b : Keyframe) (t t' : Q) :
  scroll a < scroll b -> t <= t' ->
  pose_dist (lerp_pose a b ((t - scroll a) / (scroll b - scroll a)))
            (lerp_pose a b ((t' - scroll a) / (scroll b - scroll a)))
  == pose_dist (pose_of a) (pose_of b) / (scroll b - scroll a) * (t' - t).
Proof.
  intros Hab Htt.
  rewrite lerp_pose_dist.
  - field. lra.
  - unfold Qdiv. apply Qmult_le_compat_r; [lra|].
    apply Qlt_le_weak, Qinv_lt_0_compat. lra.
Qed.

Lemma segment_pose_lipschitz (points : list Keyframe) :
  forall prev t t',
    strictly_increasing_from (scroll prev) (scrolls points) = true ->
    scroll prev <= t -> t <= t' ->
    pose_dist (segment_pose prev points t) (segment_pose prev points t')
    <= max_speed prev points * (t' - t).
Proof.
  induction points as [|next points IH]; intros prev t t' Hinc Ht Htt.
  - simpl. unfold pose_dist, dist3.
    setoid_replace (x (pos prev) - x (pos prev)) with 0 by ring.
    setoid_replace (y (pos prev) - y (pos prev)) with 0 by ring.
    setoid_replace (z (pos prev) - z (pos prev)) with 0 by ring.
    setoid_replace (x (look prev) - x (look prev)) with 0 by ring.
    setoid_replace (y (look prev) - y (look prev)) with 0 by ring.
    setoid_replace (z (look prev) - z (look prev)) with 0 by ring.
    simpl. lra.
  - assert (Hinc' := Hinc).
    apply strictly_increasing_from_cons in Hinc'. destruct Hinc' as [Hlt Hinc'].
    set (s := pose_dist (pose_of prev) (pose_of next) / (scroll next - scroll prev)).
    set (K' := max_speed next points).
    assert (HK : max_speed prev (next :: points) = Qmax s K') by reflexivity.
    rewrite HK.
    assert (Hs : s <= Qmax s K') by apply Q.le_max_l.
    assert (HK' : K' <= Qmax s K') by apply Q.le_max_r.
    assert (Hscale : forall k d, k <= Qmax s K' -> 0 <= d -> k * d <= Qmax s K' * d).
    { intros k d Hk Hd. apply Qmult_le_compat_r; assumption. }
    destruct (Qlt_le_dec (scroll next) t') as [Hpast'|Hin'].
    + destruct (Qlt_le_dec t (scroll next)) as [Hin|Hpast].
      * (* the two times lie on either side of the keyframe *)
        assert (Hmid : segment_pose prev (next :: points) (scroll next)
                       =p= segment_pose next points (scroll next)).
        { apply segment_pose_step; [exact Hinc|apply Qle_refl]. }
        eapply Qle_trans; [apply pose_dist_triangle
                             with (b := segment_pose prev (next :: points) (scroll next))|].
        assert (H1 : pose_dist (segment_pose prev (next :: points) t)
                               (segment_pose prev (next :: points) (scroll next))
                     <= Qmax s K' * (scroll next - t)).
        { simpl.
          assert (Q1 : Qle_bool t (scroll next) = true)
            by (apply Qle_bool_iff; lra).
          assert (Q2 : Qle_bool (scroll next) (scroll next) = true)
            by (apply Qle_bool_iff; lra).
          rewrite Q1, Q2.
          rewrite lerp_pose_rate by lra. fold s. apply Hscale; [exact Hs|lra]. }
        assert (H2 : pose_dist (segment_pose prev (next :: points) (scroll next))
                               (segment_pose prev (next :: points) t')
                     <= Qmax s K' * (t' - scroll next)).
        { rewrite Hmid.
          rewrite (segment_pose_step prev next points t' Hinc) by lra.
          eapply Qle_trans; [apply IH; [exact Hinc'|apply Qle_refl|lra]|].
          apply Hscale; [exact HK'|lra]. }
        lra.
      * (* both past the keyframe *)
        rewrite (segment_pose_step prev next points t Hinc Hpast).
        rewrite (segment_pose_step prev next points t' Hinc) by lra.
        eapply Qle_trans; [apply IH; assumption|].
        apply Hscale; [exact HK'|lra].
    + (* both within the first segment *)
      simpl.
      assert (Q1 : Qle_bool t (scroll next) = true) by (apply Qle_bool_iff; lra).
      assert (Q2 : Qle_bool t' (scroll next) = true) by (apply Qle_bool_iff; lra).
      rewrite Q1, Q2.
      rewrite lerp_pose_rate by lra. fold s. apply Hscale; [exact Hs|lra].
Qed.

Lemma trigger_progress_bounds (p : Q) :
  0 <= trigger_progress p /\ trigger_progress p <= 1.
Proof. apply clamp_bounds. discriminate. Qed.

Lemma playhead_clamped (first : Keyframe) (points : list Keyframe) (p : Q) :
  strictly_increasing_from (scroll first) (scrolls points) = true ->
  points <> [] -> scroll first == 0 -> final_scroll first points == 1 ->
  playhead (first :: points) p == trigger_progress p.
Proof.
  intros Hinc Hne H0 H1.
  destruct (trigger_progress_bounds p) as [Hlo Hhi].
  assert (E : playhead (first :: points) p
              = playhead (first :: points) (trigger_progress p)).
  { unfold playhead. f_equal. f_equal. symmetry.
    apply clamp_inside; assumption. }
  rewrite E. apply playhead_unit; assumption.
Qed.

(** On a path meeting the invariant the code's interpolator is the
    design's. *)
Lemma interpolate_refines_spec (path : list Keyframe) (p : Q) :
  camera_path_ok path = true ->
  interpolate path p =p= spec_interpolate path p.
Proof.
  intro Hok.
  destruct (camera_path_ok_inv path Hok) as [first [points [-> [Hne [Hinc [H0 H1]]]]]].
  rewrite (interpolate_piecewise first points Hinc H0 p).
  unfold spec_interpolate. apply segment_pose_compat.
  apply playhead_clamped; assumption.
Qed.

Lemma trigger_progress_lipschitz (p q : Q) :
  trigger_progress p <= trigger_progress q ->
  trigger_progress q - trigger_progress p <= Qabs (p - q).
Proof.
  assert (H0 := Qabs_nonneg (p - q)).
  assert (H1 := Qle_Qabs (p - q)).
  assert (H2 := Qle_Qabs (- (p - q))). rewrite Qabs_opp in H2.
  unfold trigger_progress, clamp.
  destruct (Qltb p 0) eqn:P0; destruct (Qltb q 0) eqn:Q0;
    destruct (Qltb 1 p) eqn:P1; destruct (Qltb 1 q) eqn:Q1;
    repeat match goal with
           | H : Qltb _ _ = true |- _ => apply Qltb_true in H
           | H : Qltb _ _ = false |- _ => apply Qltb_false in H
           end;
    intro Hle; lra.
Qed.

Lemma interpolate_lipschitz (path : list Keyframe) (p q : Q) :
  camera_path_ok path = true ->
  pose_dist (interpolate path p) (interpolate path q)
  <= steepest path * Qabs (p - q).
Proof.
  intro Hok.
  destruct (camera_path_ok_inv path Hok) as [first [points [-> [Hne [Hinc [H0 H1]]]]]].
  assert (Hord : forall a b,
      trigger_progress a <= trigger_progress b ->
      pose_dist (interpolate (first :: points) a) (interpolate (first :: points) b)
      <= max_speed first points * Qabs (a - b)).
  { intros a b Hab.
    rewrite (interpolate_piecewise first points Hinc H0 a).
    rewrite (interpolate_piecewise first points Hinc H0 b).
    rewrite (segment_pose_compat points first _ _
               (playhead_clamped first points a Hinc Hne H0 H1)).
    rewrite (segment_pose_compat points first _ _
               (playhead_clamped first points b Hinc Hne H0 H1)).
    destruct (trigger_progress_bounds a) as [Ha0 _].
    eapply Qle_trans.
    - apply segment_pose_lipschitz; [exact Hinc|rewrite H0; exact Ha0|exact Hab].
    - rewrite (Qmult_comm _ (trigger_progress b - trigger_progress a)).
      rewrite (Qmult_comm _ (Qabs (a - b))).
      apply Qmult_le_compat_r; [|apply max_speed_nonneg].
      apply trigger_progress_lipschitz. exact Hab. }
  simpl steepest.
  destruct (Qlt_le_dec (trigger_progress q) (trigger_progress p)) as [L|L].
  - rewrite pose_dist_sym, Qabs_Qminus. apply Hord. apply Qlt_le_weak. exact L.
  - apply Hord. exact L.
Qed.

Lemma in_nth_scroll_bounds (first : Keyframe) (points : list Keyframe) (k : Keyframe) :
  strictly_increasing_from (scroll first) (scrolls points) = true ->
  In k (first :: points) ->
  scroll first <= scroll k /\ scroll k <= final_scroll first points.
Proof.
  intros Hinc Hin. destruct (In_nth_error _ _ Hin) as [i Hi].
  apply nth_scroll_bounds with i; assumption.
Qed.

Lemma interpolate_at_keyframe (first : Keyframe) (points : list Keyframe) (k : Keyframe) :
  strictly_increasing_from (scroll first) (scrolls points) = true ->
  points <> [] -> scroll first == 0 -> final_scroll first points == 1 ->
  In k (first :: points) ->
  interpolate (first :: points) (scroll k) =p= pose_of k.
Proof.
  intros Hinc Hne H0 H1 Hin.
  destruct (in_nth_scroll_bounds first points k Hinc Hin) as [Hlo Hhi].
  assert (Hplay : playhead (first :: points) (scroll k) == scroll k).
  { apply playhead_unit; try assumption; lra. }
  rewrite interpolate_forward;
    [|exact Hinc|rewrite H0; apply Qle_refl|rewrite Hplay; exact Hlo].
  rewrite (segment_pose_compat points first _ _ Hplay).
  apply segment_pose_at_keyframe; assumption.
Qed.

Lemma nth_scroll_lt (first : Keyframe) (points : list Keyframe) (i : nat) (a b : Keyframe) :
  strictly_increasing_from (scroll first) (scrolls points) = true ->
  nth_error (first :: points) i = Some a ->
  nth_error (first :: points) (S i) = Some b ->
  scroll a < scroll b.
Proof.
  intros Hinc Ha Hb.
  apply (strictly_increasing_nth (scrolls (first :: points)) Hinc i (S i)).
  - lia.
  - unfold scrolls. rewrite nth_error_map, Ha. reflexivity.
  - unfold scrolls. rewrite nth_error_map, Hb. reflexivity.
Qed.

(** C2. On a path meeting the CameraPath invariant, interpolating at the
    scroll value of a keyframe gives that keyframe's position and look
    target; and at a keyframe [b] between [a] and [c] the segment from [a]
    taken at u = 1, the segment to [c] taken at u = 0 and the interpolator
    at [b.t] all agree, the interpolator following the one segment up to
    and including [b.t] and the other from [b.t] on: there is no jump at
    the boundary.  The pose is continuous in progress: two progress values
    that differ by [d] give poses no further apart than [d] times the rate
    of the steepest segment. *)
Theorem C2_keyframe_exactness (path : list Keyframe) :
  camera_path_ok path = true ->
  (forall k, In k path -> interpolate path (scroll k) =p= pose_of k) /\
  (forall i a b c,
      nth_error path i = Some a -> nth_error path (S i) = Some b ->
      nth_error path (S (S i)) = Some c ->
      lerp_pose a b 1 =p= lerp_pose b c 0 /\
      interpolate path (scroll b) =p= lerp_pose a b 1 /\
      (forall p, scroll a <= p -> p <= scroll b ->
         interpolate path p
         =p= lerp_pose a b ((p - scroll a) / (scroll b - scroll a))) /\
      (forall p, scroll b <= p -> p <= scroll c ->
         interpolate path p
         =p= lerp_pose b c ((p - scroll b) / (scroll c - scroll b)))) /\
  (forall p q,
      pose_dist (interpolate path p) (interpolate path q)
      <= steepest path * Qabs (p - q)).
Proof.
  intro Hok.
  assert (Hlip := fun p q => interpolate_lipschitz path p q Hok).
  destruct (camera_path_ok_inv path Hok) as [first [points [-> [Hne [Hinc [H0 H1]]]]]].
  assert (Hseg : forall i a b p,
      nth_error (first :: points) i = Some a ->
      nth_error (first :: points) (S i) = Some b ->
      scroll a <= p -> p <= scroll b ->
      interpolate (first :: points) p
      =p= lerp_pose a b ((p - scroll a) / (scroll b - scroll a))).
  { intros i a b p Ha Hb Hlo Hhi.
    destruct (nth_scroll_bounds points first i a Hinc Ha) as [Hfa _].
    destruct (nth_scroll_bounds points first (S i) b Hinc Hb) as [_ Hbf].
    assert (HpL : p * final_scroll first points == p) by (rewrite H1; ring).
    rewrite (interpolate_between first points i a b p Hinc); try assumption; try lra.
    apply lerp_pose_compat. rewrite HpL. reflexivity. }
  split; [|split; [|exact Hlip]].
  - intros k Hin. apply interpolate_at_keyframe; assumption.
  - intros i a b c Ha Hb Hc.
    assert (Hb_in : In b (first :: points)) by (eapply nth_error_In; eassumption).
    split; [|split; [|split]].
    + rewrite lerp_pose_1 by reflexivity. rewrite lerp_pose_0 by reflexivity.
      reflexivity.
    + rewrite lerp_pose_1 by reflexivity.
      apply interpolate_at_keyframe; assumption.
    + intros p. apply Hseg with i; assumption.
    + intros p. apply Hseg with (S i); assumption.
Qed.

Lemma C2_keyframe_exactness_witness :
  interpolate CAMERA_PATH 0.35
  =p= mkPose (mkVec3 (-4) 1.6 (-2)) (mkVec3 (-8) 1.6 (-2)).
Proof.
  apply (proj1 (C2_keyframe_exactness CAMERA_PATH eq_refl)
           (mkKeyframe (mkVec3 (-4) 1.6 (-2)) (mkVec3 (-8) 1.6 (-2)) 0.35)).
  simpl. tauto.
Defined.

(** C4. A progress outside [0, 1] is clamped, never refused: below 0 the
    interpolator gives what it gives at 0, above 1 what it gives at 1 (so
    at -0.5 and 1.5 on [CAMERA_PATH]); and at progress 1, on a path of at
    least two keyframes whose scroll values increase strictly from a first
    value that is not negative, the pose is that of the last segment at
    u = 1, the pose of the last keyframe. *)
Theorem C4_progress_clamped :
  (forall path p, p < 0 -> interpolate path p = interpolate path 0) /\
  (forall path p, 1 < p -> interpolate path p = interpolate path 1) /\
  interpolate CAMERA_PATH (-0.5) = interpolate CAMERA_PATH 0 /\
  interpolate CAMERA_PATH 1.5 = interpolate CAMERA_PATH 1 /\
  (forall path first n a b,
      strictly_increasing (scrolls path) = true ->
      hd_error path = Some first -> 0 <= scroll first ->
      List.length path = S (S n) ->
      nth_error path n = Some a -> nth_error path (S n) = Some b ->
      interpolate path 1 =p= lerp_pose a b 1 /\
      interpolate path 1 =p= pose_of b).
Proof.
  assert (Lo : forall path p, p < 0 -> interpolate path p = interpolate path 0).
  { intros path p Hp. unfold interpolate, trigger_progress.
    rewrite (clamp_below 0 1 p Hp). reflexivity. }
  assert (Hi : forall path p, 1 < p -> interpolate path p = interpolate path 1).
  { intros path p Hp. unfold interpolate, trigger_progress.
    rewrite (clamp_above 0 1 p) by (try exact Hp; discriminate). reflexivity. }
  split; [exact Lo|]. split; [exact Hi|].
  split; [apply Lo; reflexivity|]. split; [apply Hi; reflexivity|].
  intros path first n a b Hinc Hhd H0 Hlen Ha Hb.
  destruct (path_head path first Hhd) as [points ->].
  simpl in Hlen. injection Hlen as Hlen.
  assert (Hfin : scroll b = final_scroll first points).
  { apply final_scroll_nth. rewrite Hlen. exact Hb. }
  assert (Hlt := nth_scroll_lt first points n a b Hinc Ha Hb).
  assert (H : interpolate (first :: points) 1 =p= lerp_pose a b 1).
  { rewrite (interpolate_between first points n a b 1 Hinc); try assumption;
      try discriminate; try (rewrite <- Hfin; lra).
    apply lerp_pose_compat. rewrite <- Hfin. field. lra. }
  split; [exact H|]. rewrite H. apply lerp_pose_1. reflexivity.
Qed.

Lemma C4_progress_clamped_witness :
  interpolate CAMERA_PATH (-3) = interpolate CAMERA_PATH 0 /\
  interpolate CAMERA_PATH 1 =p= mkPose (mkVec3 (-4) 1.6 (-22)) (mkVec3 0 1.6 (-22)).
Proof.
  split.
  - apply (proj1 C4_progress_clamped CAMERA_PATH (-3)). reflexivity.
  - apply (proj2 (proj2 (proj2 (proj2 (proj2 C4_progress_clamped)))
             CAMERA_PATH (mkKeyframe (mkVec3 0 1.6 12) (mkVec3 0 1.6 0) 0) 8%nat
             (mkKeyframe (mkVec3 (-4) 1.6 (-18)) (mkVec3 (-4) 1.6 (-22)) 0.85)
             (mkKeyframe (mkVec3 (-4) 1.6 (-22)) (mkVec3 0 1.6 (-22)) 1.0)
             eq_refl eq_refl ltac:(unfold Qle; simpl; lia) eq_refl eq_refl eq_refl)).
Defined.

(** ** Scroll updates *)

Lemma scroll_update_read_model (fraction : Q) (app : App) :
  scrollProgress (scroll_update fraction app) = trigger_progress fraction /\
  currentRoom (scroll_update fraction app) = room_label (trigger_progress fraction) /\
  aspect (camera (scroll_update fraction app)) = aspect (camera app) /\
  renderer (scroll_update fraction app) = renderer app.
Proof.
  unfold scroll_update, onUpdate. simpl.
  destruct (scrub (trigger_progress fraction) (tl app) (state (camera app)))
    as [tl' state'].
  simpl. repeat split.
Qed.


(** C10. Every keyframe of [CAMERA_PATH] has its position and its look
    target at height 1.6, and so has the pose at every progress, and the
    pose of the camera in every state the component reaches. *)
Theorem C10_constant_eye_height :
  Forall (fun k => y (pos k) == 1.6 /\ y (look k) == 1.6) CAMERA_PATH /\
  (forall p,
      y (position (interpolate CAMERA_PATH p)) == 1.6 /\
      y (lookAt (interpolate CAMERA_PATH p)) == 1.6) /\
  (forall w h app, reachable CAMERA_PATH w h app ->
      y (position (pose (camera app))) == 1.6 /\
      y (lookAt (pose (camera app))) == 1.6).
Proof.
  assert (Hlevel : Forall (fun k => y (pos k) == 1.6 /\ y (look k) == 1.6) CAMERA_PATH).
  { unfold CAMERA_PATH. repeat constructor; reflexivity. }
  split; [exact Hlevel|].
  destruct (camera_path_ok_inv CAMERA_PATH eq_refl)
    as [first [points [E [Hne [Hinc [H0 H1]]]]]].
  rewrite E in *. split.
  - intro p.
    destruct (interpolate_piecewise first points Hinc H0 p) as [[_ [Hy _]] [_ [Hy' _]]].
    rewrite Hy, Hy'. apply segment_pose_level. exact Hlevel.
  - intros w h app Hreach.
    destruct (reachable_inv first points Hinc H0 w h app Hreach)
      as [_ [_ [_ [_ [[_ [Hy _]] [_ [Hy' _]]]]]]].
    rewrite Hy, Hy'. apply segment_pose_level. exact Hlevel.
Qed.

Lemma C10_constant_eye_height_witness :
  let app := scroll_update 0.5 (setup CAMERA_PATH 1920 1080) in
  y (position (pose (camera app))) == 1.6 /\ y (lookAt (pose (camera app))) == 1.6.
Proof.
  intro app.
  apply (proj2 (proj2 C10_constant_eye_height) 1920 1080 app).
  apply reach_scroll. apply reach_setup.
Defined.

(** * Further properties of the code *)

(** ** How the tweens lie on the timeline *)

Lemma path_tweens_length (points : list Keyframe) :
  forall prev, List.length (path_tweens prev points) = (2 * List.length points)%nat.
Proof.
  induction points as [|next points IH]; intro prev; simpl; [reflexivity|].
  rewrite IH. lia.
Qed.

Lemma path_tweens_nth (points : list Keyframe) :
  forall prev i a b,
    nth_error (prev :: points) i = Some a ->
    nth_error (prev :: points) (S i) = Some b ->
    nth_error (path_tweens prev points) (2 * i) = Some (position_tween a b) /\
    nth_error (path_tweens prev points) (2 * i + 1) = Some (lookAt_tween a b).
Proof.
  induction points as [|next points IH]; intros prev i a b Ha Hb.
  - destruct i; discriminate.
  - destruct i as [|i].
    + simpl in Ha, Hb. injection Ha as <-. injection Hb as <-. split; reflexivity.
    + simpl in Ha, Hb. destruct (IH next i a b Ha Hb) as [H1 H2].
      replace (2 * S i)%nat with (S (S (2 * i))) by lia.
      replace (S (S (2 * i)) + 1)%nat with (S (S (2 * i + 1))) by lia.
      simpl. split; assumption.
Qed.

Lemma path_tweens_abut (points : list Keyframe) :
  forall prev i tw tw',
    nth_error (path_tweens prev points) i = Some tw ->
    nth_error (path_tweens prev points) (i + 2) = Some tw' ->
    tween_end tw == startTime tw'.
Proof.
  induction points as [|next points IH]; intros prev i tw tw' H H'.
  - destruct i; discriminate.
  - destruct i as [|[|i]].
    + simpl in H, H'. injection H as <-.
      destruct points as [|next' points]; [discriminate|].
      simpl in H'. injection H' as <-. apply tween_end_position.
    + simpl in H, H'. injection H as <-.
      destruct points as [|next' points]; [discriminate|].
      simpl in H'. injection H' as <-. apply tween_end_lookAt.
    + simpl in H, H'. apply (IH next i tw tw' H H').
Qed.

(** X1. Whatever the path, each keyframe after the first contributes one
    tween of the camera position and one of the look target, in that order;
    the two start at the previous keyframe's scroll value and end at the
    keyframe's own.  So the tweens of consecutive segments abut: every
    tween ends exactly where the tween of the same kind for the next
    segment starts, with no gap and no overlap. *)
Theorem X1_tweens_tile_timeline (path : list Keyframe) :
  List.length (tweens_of_path path) = (2 * (List.length path - 1))%nat /\
  (forall i a b,
      nth_error path i = Some a -> nth_error path (S i) = Some b ->
      nth_error (tweens_of_path path) (2 * i) = Some (position_tween a b) /\
      nth_error (tweens_of_path path) (2 * i + 1) = Some (lookAt_tween a b) /\
      startTime (position_tween a b) = scroll a /\
      startTime (lookAt_tween a b) = scroll a /\
      tween_end (position_tween a b) == scroll b /\
      tween_end (lookAt_tween a b) == scroll b) /\
  (forall i tw tw',
      nth_error (tweens_of_path path) i = Some tw ->
      nth_error (tweens_of_path path) (i + 2) = Some tw' ->
      tween_end tw == startTime tw').
Proof.
  destruct path as [|first points].
  - split; [reflexivity|]. split.
    + intros i a b Ha. destruct i; discriminate.
    + intros i tw tw' H. destruct i; discriminate.
  - split; [|split].
    + simpl. rewrite path_tweens_length. lia.
    + intros i a b Ha Hb.
      destruct (path_tweens_nth points first i a b Ha Hb) as [H1 H2].
      split; [exact H1|]. split; [exact H2|].
      split; [reflexivity|]. split; [reflexivity|].
      split; [apply tween_end_position|apply tween_end_lookAt].
    + intros i tw tw'. apply path_tweens_abut.
Qed.

Lemma X1_tweens_tile_timeline_witness :
  tween_end (position_tween
               (mkKeyframe (mkVec3 0 1.6 12) (mkVec3 0 1.6 0) 0)
               (mkKeyframe (mkVec3 0 1.6 6) (mkVec3 0 1.6 0) 0.15))
  == startTime (position_tween
                  (mkKeyframe (mkVec3 0 1.6 6) (mkVec3 0 1.6 0) 0.15)
                  (mkKeyframe (mkVec3 0 1.6 0) (mkVec3 (-4) 1.6 (-2)) 0.25)).
Proof.
  apply (proj2 (proj2 (X1_tweens_tile_timeline CAMERA_PATH)) 0%nat);
    reflexivity.
Defined.

(** X2. For a path of at least two keyframes whose scroll values increase
    strictly from a first value that is not negative, the timeline lasts as
    long as the scroll value of the last keyframe, and a progress [p] in
    [0, 1] puts the playhead at [p] times that value. *)
Theorem X2_timeline_duration (path : list Keyframe) (first : Keyframe) (L : Q) :
  strictly_increasing (scrolls path) = true ->
  (2 <= List.length path)%nat ->
  hd_error path = Some first -> 0 <= scroll first ->
  last_scroll path = Some L ->
  totalDuration (children (initial_timeline path)) == L /\
  (forall p, 0 <= p -> p <= 1 -> playhead path p == p * L).
Proof.
  intros Hinc Hlen Hhd H0 HL.
  destruct (path_head path first Hhd) as [points ->].
  rewrite last_scroll_final in HL. injection HL as <-.
  assert (Hne : points <> []) by (intros ->; simpl in Hlen; lia).
  split.
  - apply (totalDuration_final points first); try assumption.
    apply children_for_initial.
  - intros p Hp0 Hp1. apply playhead_scaled; assumption.
Qed.

Lemma X2_timeline_duration_witness :
  totalDuration (children (initial_timeline scenario_path)) == 0.35 /\
  playhead scenario_path 0.075 == 0.075 * 0.35.
Proof.
  destruct (X2_timeline_duration scenario_path
              (mkKeyframe (mkVec3 0 1.6 12) (mkVec3 0 1.6 0) 0) 0.35
              eq_refl ltac:(simpl; lia) eq_refl ltac:(unfold Qle; simpl; lia) eq_refl)
    as [HD Hp].
  split; [exact HD|].
  apply Hp; unfold Qle; simpl; lia.
Defined.

(** ** Where the camera can be *)

Lemma coord_compat (a : Axis) (v w : Vec3) : v =v= w -> coord a v == coord a w.
Proof. intros [H1 [H2 H3]]. destruct a; assumption. Qed.

Lemma part_of_pose_compat (part : Part) (p q : Pose) :
  p =p= q -> part_of_pose part p =v= part_of_pose part q.
Proof. intros [H1 H2]. destruct part; assumption. Qed.

Lemma coord_part_lerp_pose (a : Axis) (part : Part) (k k' : Keyframe) (u : Q) :
  coord a (part_of_pose part (lerp_pose k k' u))
  = lerp (coord a (part_of_keyframe part k)) (coord a (part_of_keyframe part k')) u.
Proof. destruct a, part; reflexivity. Qed.

Lemma lerp_within (lo hi a b u : Q) :
  0 <= u -> u <= 1 -> lo <= a -> a <= hi -> lo <= b -> b <= hi ->
  lo <= lerp a b u /\ lerp a b u <= hi.
Proof.
  intros Hu0 Hu1 Hla Hah Hlb Hbh. unfold lerp.
  assert (E : a + (b - a) * u == (1 - u) * a + u * b) by ring.
  rewrite E. split.
  - assert (H1 : (1 - u) * lo <= (1 - u) * a)
      by (rewrite !(Qmult_comm (1 - u)); apply Qmult_le_compat_r; lra).
    assert (H2 : u * lo <= u * b)
      by (rewrite !(Qmult_comm u); apply Qmult_le_compat_r; lra).
    assert (E' : lo == (1 - u) * lo + u * lo) by ring.
    rewrite E'. lra.
  - assert (H1 : (1 - u) * a <= (1 - u) * hi)
      by (rewrite !(Qmult_comm (1 - u)); apply Qmult_le_compat_r; lra).
    assert (H2 : u * b <= u * hi)
      by (rewrite !(Qmult_comm u); apply Qmult_le_compat_r; lra).
    assert (E' : hi == (1 - u) * hi + u * hi) by ring.
    rewrite E'. lra.
Qed.

Lemma segment_ratio_bounds (sp sn t : Q) :
  sp < sn -> sp <= t -> t <= sn ->
  0 <= (t - sp) / (sn - sp) /\ (t - sp) / (sn - sp) <= 1.
Proof. intros. apply div_between; lra. Qed.

Lemma segment_pose_within (a : Axis) (part : Part) (lo hi : Q) (points : list Keyframe) :
  forall prev t,
    strictly_increasing_from (scroll prev) (scrolls points) = true ->
    scroll prev <= t ->
    Forall (fun k => lo <= coord a (part_of_keyframe part k) /\
                     coord a (part_of_keyframe part k) <= hi) (prev :: points) ->
    lo <= coord a (part_of_pose part (segment_pose prev points t)) /\
    coord a (part_of_pose part (segment_pose prev points t)) <= hi.
Proof.
  induction points as [|next points IH]; intros prev t Hinc Ht Hbox.
  - inversion Hbox as [|? ? Hk _]; subst. simpl. destruct part; exact Hk.
  - inversion Hbox as [|? ? Hk Hrest]; subst.
    inversion Hrest as [|? ? Hk' _]; subst.
    apply strictly_increasing_from_cons in Hinc. destruct Hinc as [Hlt Hinc].
    simpl. destruct (Qle_bool t (scroll next)) eqn:E.
    + apply Qle_bool_iff in E. rewrite coord_part_lerp_pose.
      destruct (segment_ratio_bounds (scroll prev) (scroll next) t Hlt Ht E).
      apply lerp_within; tauto.
    + apply Qle_bool_false in E. apply IH; [exact Hinc| |exact Hrest].
      apply Qlt_le_weak. exact E.
Qed.

Lemma playhead_nonneg (path : list Keyframe) (p : Q) : 0 <= playhead path p.
Proof.
  unfold playhead. apply (clamp_bounds 0 _ _ (totalDuration_nonneg _)).
Qed.

(** X3. On a path meeting the CameraPath invariant the camera never leaves
    the box of its keyframes: if along some axis every keyframe position
    (or every look target) lies between two bounds, so does the position
    (the look target) of the pose at every progress, and of the camera in
    every state the component reaches. *)
Theorem X3_pose_within_keyframe_box (path : list Keyframe) (a : Axis) (part : Part)
    (lo hi : Q) :
  camera_path_ok path = true ->
  Forall (fun k => lo <= coord a (part_of_keyframe part k) /\
                   coord a (part_of_keyframe part k) <= hi) path ->
  (forall p,
      lo <= coord a (part_of_pose part (interpolate path p)) /\
      coord a (part_of_pose part (interpolate path p)) <= hi) /\
  (forall w h app, reachable path w h app ->
      lo <= coord a (part_of_pose part (pose (camera app))) /\
      coord a (part_of_pose part (pose (camera app))) <= hi).
Proof.
  intros Hok Hbox.
  destruct (camera_path_ok_inv path Hok) as [first [points [-> [Hne [Hinc [H0 H1]]]]]].
  split.
  - intro p.
    rewrite (coord_compat a _ _ (part_of_pose_compat part _ _
               (interpolate_piecewise first points Hinc H0 p))).
    apply segment_pose_within; [exact Hinc| |exact Hbox].
    rewrite H0. apply playhead_nonneg.
  - intros w h app Hreach.
    destruct (reachable_inv first points Hinc H0 w h app Hreach)
      as [_ [_ [Ht0 [_ Hpose]]]].
    rewrite (coord_compat a _ _ (part_of_pose_compat part _ _ Hpose)).
    apply segment_pose_within; [exact Hinc| |exact Hbox].
    rewrite H0. exact Ht0.
Qed.

(** The tour stays between x = -8 and x = 0. *)
Lemma X3_pose_within_keyframe_box_witness :
  -8 <= x (position (interpolate CAMERA_PATH 0.42)) /\
  x (position (interpolate CAMERA_PATH 0.42)) <= 0.
Proof.
  apply (proj1 (X3_pose_within_keyframe_box CAMERA_PATH AxisX PositionPart (-8) 0
                  eq_refl
                  ltac:(unfold CAMERA_PATH; repeat constructor; simpl;
                        unfold Qle; simpl; lia)) 0.42).
Defined.

(** ** Walking forward *)

Lemma nonincreasing_from_cons (v v1 : Q) (vs : list Q) :
  nonincreasing_from v (v1 :: vs) = true ->
  v1 <= v /\ nonincreasing_from v1 vs = true.
Proof.
  simpl. intro H. apply andb_true_iff in H. destruct H as [H1 H2].
  apply Qle_bool_iff in H1. tauto.
Qed.

Lemma lerp_nonincreasing (a b u u' : Q) :
  b <= a -> u <= u' -> lerp a b u' <= lerp a b u.
Proof.
  intros Hba Huu. unfold lerp.
  assert (H : (a - b) * u <= (a - b) * u')
    by (rewrite !(Qmult_comm (a - b)); apply Qmult_le_compat_r; lra).
  assert (E : forall w, a + (b - a) * w == a - (a - b) * w) by (intro; ring).
  rewrite !E. lra.
Qed.

Section Descent.

Variables (a : Axis) (part : Part).

Lemma segment_pose_below_start (points : list Keyframe) :
  forall prev t,
    strictly_increasing_from (scroll prev) (scrolls points) = true ->
    nonincreasing_from (keyframe_coord a part prev) (map (keyframe_coord a part) points) = true ->
    scroll prev <= t ->
    pose_coord a part (segment_pose prev points t) <= keyframe_coord a part prev.
Proof.
  induction points as [|next points IH]; intros prev t Hinc Hdesc Ht.
  - unfold pose_coord, keyframe_coord. simpl. destruct part; apply Qle_refl.
  - apply strictly_increasing_from_cons in Hinc. destruct Hinc as [Hlt Hinc].
    simpl map in Hdesc.
    apply nonincreasing_from_cons in Hdesc. destruct Hdesc as [Hle Hdesc].
    unfold pose_coord. simpl. destruct (Qle_bool t (scroll next)) eqn:E.
    + apply Qle_bool_iff in E. rewrite coord_part_lerp_pose.
      destruct (segment_ratio_bounds (scroll prev) (scroll next) t Hlt Ht E).
      apply (lerp_within (keyframe_coord a part next) (keyframe_coord a part prev)); try assumption; apply Qle_refl.
    + apply Qle_bool_false in E.
      apply Qle_trans with (keyframe_coord a part next); [|exact Hle].
      apply IH; [exact Hinc|exact Hdesc|apply Qlt_le_weak; exact E].
Qed.

Lemma segment_pose_nonincreasing (points : list Keyframe) :
  forall prev t t',
    strictly_increasing_from (scroll prev) (scrolls points) = true ->
    nonincreasing_from (keyframe_coord a part prev) (map (keyframe_coord a part) points) = true ->
    scroll prev <= t -> t <= t' ->
    pose_coord a part (segment_pose prev points t') <= pose_coord a part (segment_pose prev points t).
Proof.
  induction points as [|next points IH]; intros prev t t' Hinc Hdesc Ht Htt.
  - unfold pose_coord. simpl. apply Qle_refl.
  - assert (Hinc' := Hinc).
    apply strictly_increasing_from_cons in Hinc'. destruct Hinc' as [Hlt Hinc'].
    simpl map in Hdesc.
    apply nonincreasing_from_cons in Hdesc. destruct Hdesc as [Hle Hdesc].
    destruct (Qlt_le_dec (scroll next) t') as [Hpast'|Hin'].
    + assert (Ef' : pose_coord a part (segment_pose prev (next :: points) t') = pose_coord a part (segment_pose next points t')).
      { unfold pose_coord. simpl. apply Qle_bool_false in Hpast'. rewrite Hpast'. reflexivity. }
      rewrite Ef'.
      destruct (Qlt_le_dec (scroll next) t) as [Hpast|Hin].
      * assert (Ef : pose_coord a part (segment_pose prev (next :: points) t) = pose_coord a part (segment_pose next points t)).
        { unfold pose_coord. simpl. apply Qle_bool_false in Hpast. rewrite Hpast. reflexivity. }
        rewrite Ef. apply IH; try assumption. apply Qlt_le_weak. exact Hpast.
      * apply Qle_trans with (keyframe_coord a part next).
        -- apply segment_pose_below_start; try assumption.
           apply Qlt_le_weak. exact Hpast'.
        -- unfold pose_coord. simpl. apply Qle_bool_iff in Hin. rewrite Hin.
           apply Qle_bool_iff in Hin. rewrite coord_part_lerp_pose.
           destruct (segment_ratio_bounds (scroll prev) (scroll next) t Hlt Ht Hin).
           apply (lerp_within (keyframe_coord a part next) (keyframe_coord a part prev)); try assumption; apply Qle_refl.
    + assert (Hin : t <= scroll next) by lra.
      unfold pose_coord. simpl.
      apply Qle_bool_iff in Hin. apply Qle_bool_iff in Hin'. rewrite Hin, Hin'.
      rewrite !coord_part_lerp_pose. apply lerp_nonincreasing; [exact Hle|].
      unfold Qdiv. apply Qmult_le_compat_r; [lra|].
      apply Qlt_le_weak, Qinv_lt_0_compat. lra.
Qed.

End Descent.

Lemma trigger_progress_monotone (p q : Q) :
  p <= q -> trigger_progress p <= trigger_progress q.
Proof.
  intro H. unfold trigger_progress, clamp.
  destruct (Qltb p 0) eqn:P0; destruct (Qltb q 0) eqn:Q0;
    destruct (Qltb 1 p) eqn:P1; destruct (Qltb 1 q) eqn:Q1;
    repeat match goal with
           | H : Qltb _ _ = true |- _ => apply Qltb_true in H
           | H : Qltb _ _ = false |- _ => apply Qltb_false in H
           end; lra.
Qed.

(** X4. Scrolling forward never takes the camera back.  On a path meeting
    the CameraPath invariant, if along some axis the keyframe positions (or
    look targets) never increase from one keyframe to the next, then the
    position (the look target) of the pose never increases with progress.
    In [CAMERA_PATH] this holds of the position along z: the camera only
    ever moves deeper into the apartment. *)
Theorem X4_forward_scroll_never_retreats (path : list Keyframe) (a : Axis)
    (part : Part) (p q : Q) :
  camera_path_ok path = true ->
  nonincreasing (map (fun k => coord a (part_of_keyframe part k)) path) = true ->
  p <= q ->
  coord a (part_of_pose part (interpolate path q))
  <= coord a (part_of_pose part (interpolate path p)).
Proof.
  intros Hok Hdesc Hpq.
  destruct (camera_path_ok_inv path Hok) as [first [points [-> [Hne [Hinc [H0 H1]]]]]].
  rewrite (coord_compat a _ _ (part_of_pose_compat part _ _
             (interpolate_piecewise first points Hinc H0 q))).
  rewrite (coord_compat a _ _ (part_of_pose_compat part _ _
             (interpolate_piecewise first points Hinc H0 p))).
  rewrite (coord_compat a _ _ (part_of_pose_compat part _ _
             (segment_pose_compat points first _ _
                (playhead_clamped first points q Hinc Hne H0 H1)))).
  rewrite (coord_compat a _ _ (part_of_pose_compat part _ _
             (segment_pose_compat points first _ _
                (playhead_clamped first points p Hinc Hne H0 H1)))).
  apply segment_pose_nonincreasing.
  - exact Hinc.
  - exact Hdesc.
  - rewrite H0. apply trigger_progress_bounds.
  - apply trigger_progress_monotone. exact Hpq.
Qed.

Lemma X4_forward_scroll_never_retreats_witness :
  z (position (interpolate CAMERA_PATH 0.6))
  <= z (position (interpolate CAMERA_PATH 0.3)).
Proof.
  apply (X4_forward_scroll_never_retreats CAMERA_PATH AxisZ PositionPart 0.3 0.6
           eq_refl eq_refl).
  unfold Qle. simpl. lia.
Defined.

(** ** What the overlay shows agrees with the camera *)

Lemma playhead_of_trigger_progress (path : list Keyframe) (fraction : Q) :
  playhead path (trigger_progress fraction) = playhead path fraction.
Proof.
  unfold playhead. f_equal. f_equal.
  destruct (trigger_progress_bounds fraction) as [Hlo Hhi].
  apply clamp_inside; assumption.
Qed.

Lemma reachable_read_model (first : Keyframe) (points : list Keyframe)
    (w h : Q) (app : App) :
  camera_path_ok (first :: points) = true ->
  reachable (first :: points) w h app ->
  0 <= scrollProgress app /\ scrollProgress app <= 1 /\
  currentRoom app = room_label (scrollProgress app) /\
  pose (camera app) =p= interpolate (first :: points) (scrollProgress app).
Proof.
  intros Hok Hreach.
  destruct (camera_path_ok_inv _ Hok) as [first' [points' [E [Hne [Hinc [H0 H1]]]]]].
  injection E as <- <-.
  induction Hreach as [|fraction app Hr IH|w' h' app Hr IH].
  - split; [apply Qle_refl|]. split; [discriminate|]. split; [reflexivity|].
    simpl. symmetry.
    rewrite (interpolate_piecewise first points Hinc H0 0).
    apply segment_pose_at_start; [exact Hinc|].
    rewrite (playhead_unit first points 0 Hinc Hne H0 H1); try discriminate.
    symmetry. exact H0.
  - destruct (scroll_update_read_model fraction app) as [S1 [R1 _]].
    destruct (trigger_progress_bounds fraction) as [Hlo Hhi].
    rewrite S1, R1. split; [exact Hlo|]. split; [exact Hhi|].
    split; [reflexivity|].
    rewrite (scroll_update_pose first points Hinc H0 fraction app
               (reachable_inv first points Hinc H0 w h app Hr)).
    rewrite (interpolate_piecewise first points Hinc H0 (trigger_progress fraction)).
    rewrite playhead_of_trigger_progress. reflexivity.
  - exact IH.
Qed.



(** X6. In every state the component reaches, whatever the path, the
    projection is the one of the camera's current aspect, and that aspect
    is the width of the drawing surface over its height: projection and
    surface cannot drift apart, since the resize handler is the only code
    that writes either and it writes both. *)
Theorem X6_projection_matches_surface (path : list Keyframe) (w h : Q) (app : App) :
  reachable path w h app ->
  projectionAspect (camera app) = aspect (camera app) /\
  aspect (camera app) = width (renderer app) / height (renderer app).
Proof.
  induction 1 as [|fraction app Hr IH|w' h' app Hr IH].
  - split; reflexivity.
  - destruct IH as [IH1 IH2].
    unfold scroll_update, onUpdate. simpl.
    destruct (scrub (trigger_progress fraction) (tl app) (state (camera app)))
      as [tl' state'].
    simpl. split; assumption.
  - split; reflexivity.
Qed.

Lemma X6_projection_matches_surface_witness :
  let app := scroll_update 0.4 (handleResize 800 600 (setup CAMERA_PATH 1920 1080)) in
  projectionAspect (camera app) == 4 # 3.
Proof.
  intro app.
  assert (Hreach : reachable CAMERA_PATH 1920 1080 app).
  { apply reach_scroll. apply reach_resize. apply reach_setup. }
  destruct (X6_projection_matches_surface CAMERA_PATH 1920 1080 app Hreach) as [H1 H2].
  rewrite H1, H2. reflexivity.
Defined.

(** ** The overlay sections *)

Lemma overlay_ranges (p : Q) :
  p < 0.15 \/ (0.15 <= p /\ p <= 0.18) \/ (0.18 < p /\ p < 0.35) \/
  (0.35 <= p /\ p <= 0.38) \/ (0.38 < p /\ p < 0.55) \/
  (0.55 <= p /\ p <= 0.58) \/ (0.58 < p /\ p <= 0.72) \/
  (0.72 < p /\ p < 0.75) \/ (0.75 <= p /\ p < 0.88) \/
  p == 0.88 \/ 0.88 < p.
Proof.
  destruct (Qlt_le_dec p 0.15); [tauto|].
  destruct (Qlt_le_dec 0.18 p); [|tauto].
  destruct (Qlt_le_dec p 0.35); [tauto|].
  destruct (Qlt_le_dec 0.38 p); [|tauto].
  destruct (Qlt_le_dec p 0.55); [tauto|].
  destruct (Qlt_le_dec 0.58 p); [|tauto].
  destruct (Qlt_le_dec 0.72 p); [|tauto].
  destruct (Qlt_le_dec p 0.75); [tauto|].
  destruct (Qlt_le_dec p 0.88); [tauto|].
  destruct (Qlt_le_dec 0.88 p); [tauto|].
  right. right. right. right. right. right. right. right. right. left.
  apply Qle_antisym; assumption.
Qed.

Ltac settle_comparisons :=
  repeat match goal with
         | |- context [Qltb ?a ?b] =>
             first
               [ replace (Qltb a b) with true by (symmetry; apply Qltb_true; lra)
               | replace (Qltb a b) with false by (symmetry; apply Qltb_false; lra) ]
         end.

Lemma visible_overlays_cases (p : Q) :
  (p < 0.15 /\ visible_overlays p = [HeroSection]) \/
  (0.15 <= p /\ p <= 0.18 /\ visible_overlays p = []) \/
  (0.18 < p /\ p < 0.35 /\ visible_overlays p = [AboutSection]) \/
  (0.35 <= p /\ p <= 0.38 /\ visible_overlays p = []) \/
  (0.38 < p /\ p < 0.55 /\ visible_overlays p = [ServicesSection]) \/
  (0.55 <= p /\ p <= 0.58 /\ visible_overlays p = []) \/
  (0.58 < p /\ p <= 0.72 /\ visible_overlays p = [PortfolioSection]) \/
  (0.72 < p /\ p < 0.75 /\ visible_overlays p = [PortfolioSection; TestimonialsSection]) \/
  (0.75 <= p /\ p < 0.88 /\ visible_overlays p = [TestimonialsSection]) \/
  (p == 0.88 /\ visible_overlays p = []) \/
  (0.88 < p /\ visible_overlays p = [ContactSection]).
Proof.
  unfold visible_overlays, overlays, overlay_visible, filter.
  destruct (overlay_ranges p)
    as [H|[[H H']|[[H H']|[[H H']|[[H H']|[[H H']|[[H H']|[[H H']|[[H H']|[H|H]]]]]]]]]].
  - left. split; [exact H|]. settle_comparisons. reflexivity.
  - right; left. split; [exact H|]. split; [exact H'|].
    settle_comparisons. reflexivity.
  - do 2 right; left. split; [exact H|]. split; [exact H'|].
    settle_comparisons. reflexivity.
  - do 3 right; left. split; [exact H|]. split; [exact H'|].
    settle_comparisons. reflexivity.
  - do 4 right; left. split; [exact H|]. split; [exact H'|].
    settle_comparisons. reflexivity.
  - do 5 right; left. split; [exact H|]. split; [exact H'|].
    settle_comparisons. reflexivity.
  - do 6 right; left. split; [exact H|]. split; [exact H'|].
    settle_comparisons. reflexivity.
  - do 7 right; left. split; [exact H|]. split; [exact H'|].
    settle_comparisons. reflexivity.
  - do 8 right; left. split; [exact H|]. split; [exact H'|].
    settle_comparisons. reflexivity.
  - do 9 right; left. split; [exact H|].
    settle_comparisons. reflexivity.
  - do 10 right. split; [exact H|]. settle_comparisons. reflexivity.
Qed.

(** X7. The six overlay sections are not a partition of the scroll range.
    At most two are opaque at once; two are opaque exactly for progress
    strictly between 0.72 and 0.75, where the portfolio and the
    testimonials sections overlap; and none is opaque exactly on the gaps
    [0.15, 0.18], [0.35, 0.38], [0.55, 0.58] and at the single value
    0.88. *)
Theorem X7_overlay_overlap_and_gaps (p : Q) :
  (List.length (visible_overlays p) <= 2)%nat /\
  (visible_overlays p = [PortfolioSection; TestimonialsSection] <-> 0.72 < p /\ p < 0.75) /\
  (List.length (visible_overlays p) = 2%nat <-> 0.72 < p /\ p < 0.75) /\
  (visible_overlays p = [] <->
     (0.15 <= p /\ p <= 0.18) \/ (0.35 <= p /\ p <= 0.38) \/
     (0.55 <= p /\ p <= 0.58) \/ p == 0.88).
Proof.
  destruct (visible_overlays_cases p)
    as [[H E]|[[H [H' E]]|[[H [H' E]]|[[H [H' E]]|[[H [H' E]]|[[H [H' E]]
       |[[H [H' E]]|[[H [H' E]]|[[H [H' E]]|[[H E]|[H E]]]]]]]]]]];
    rewrite E; simpl;
    (split; [lia|]);
    (split; [split; [intro K; try discriminate K; split; lra
                    |intros [K1 K2]; try reflexivity; exfalso; lra]|]);
    (split; [split; [intro K; try discriminate K; try (exfalso; lia); split; lra
                    |intros [K1 K2]; try reflexivity; exfalso; lra]|]);
    (split; [intro K; try discriminate K; try (rewrite H in *); lra
            |intros [[K1 K2]|[[K1 K2]|[[K1 K2]|K]]];
             try reflexivity; exfalso; try (rewrite K in *); lra]).
Qed.

(** ** Delivering a progress value again *)

Lemma render_child_tween (t : Q) (c : Child) (cam : CameraState) :
  tween (fst (render_child t c cam)) = tween c.
Proof.
  unfold render_child. destruct (startValues c); [reflexivity|].
  destruct (Qltb t (startTime (tween c))); reflexivity.
Qed.

Lemma render_forward_tweens (t : Q) (cs : list Child) :
  forall cam, map tween (fst (render_forward t cs cam)) = map tween cs.
Proof.
  induction cs as [|c cs IH]; intro cam; [reflexivity|]. simpl.
  destruct (Qle_bool (startTime (tween c)) t).
  - assert (H := render_child_tween t c cam).
    destruct (render_child t c cam) as [c' cam']. simpl in H.
    specialize (IH cam'). destruct (render_forward t cs cam') as [cs'' cam''].
    simpl in *. rewrite H, IH. reflexivity.
  - specialize (IH cam). destruct (render_forward t cs cam) as [cs'' cam''].
    simpl in *. rewrite IH. reflexivity.
Qed.

Lemma render_backward_tweens (t : Q) (cs : list Child) :
  forall cam, map tween (fst (render_backward t cs cam)) = map tween cs.
Proof.
  induction cs as [|c cs IH]; intro cam; [reflexivity|]. simpl.
  specialize (IH cam). destruct (render_backward t cs cam) as [cs'' cam'].
  simpl in IH. destruct (Qle_bool t (tween_end (tween c))).
  - assert (H := render_child_tween t c cam').
    destruct (render_child t c cam') as [c' cam'']. simpl in *.
    rewrite H, IH. reflexivity.
  - simpl. rewrite IH. reflexivity.
Qed.

Lemma totalDuration_tweens (cs : list Child) :
  forall cs', map tween cs = map tween cs' -> totalDuration cs = totalDuration cs'.
Proof.
  induction cs as [|c cs IH]; intros [|c' cs'] H; try discriminate; [reflexivity|].
  simpl in H. injection H as Hc Hcs. simpl. rewrite Hc, (IH cs' Hcs). reflexivity.
Qed.

Lemma seek_duration (t : Q) (tl : Timeline) (cam : CameraState) :
  totalDuration (children (fst (seek t tl cam))) = totalDuration (children tl).
Proof.
  unfold seek.
  destruct (Qeq_bool (time tl) _); [reflexivity|].
  destruct (Qle_bool (time tl) _).
  - assert (H := render_forward_tweens
                   (clamp 0 (totalDuration (children tl)) t) (children tl) cam).
    destruct (render_forward _ (children tl) cam) as [cs cam']. simpl in *.
    apply totalDuration_tweens. exact H.
  - assert (H := render_backward_tweens
                   (clamp 0 (totalDuration (children tl)) t) (children tl) cam).
    destruct (render_backward _ (children tl) cam) as [cs cam']. simpl in *.
    apply totalDuration_tweens. exact H.
Qed.

Lemma seek_time (t : Q) (tl : Timeline) (cam : CameraState) :
  time (fst (seek t tl cam)) == clamp 0 (totalDuration (children tl)) t.
Proof.
  unfold seek.
  destruct (Qeq_bool (time tl) _) eqn:E; [apply Qeq_bool_iff in E; exact E|].
  destruct (Qle_bool (time tl) _).
  - destruct (render_forward _ (children tl) cam). reflexivity.
  - destruct (render_backward _ (children tl) cam). reflexivity.
Qed.

Lemma seek_again (t : Q) (tl : Timeline) (cam : CameraState) :
  seek t (fst (seek t tl cam)) (snd (seek t tl cam)) = seek t tl cam.
Proof.
  assert (HD := seek_duration t tl cam). assert (Ht := seek_time t tl cam).
  destruct (seek t tl cam) as [tl' cam']. simpl in *.
  unfold seek. rewrite HD.
  apply Qeq_bool_iff in Ht. rewrite Ht. reflexivity.
Qed.

Lemma scrub_again (progress : Q) (tl : Timeline) (cam : CameraState) :
  scrub progress (fst (scrub progress tl cam)) (snd (scrub progress tl cam))
  = scrub progress tl cam.
Proof.
  unfold scrub. rewrite seek_duration. apply seek_again.
Qed.


(** ** Scrolling forward only *)

Lemma seek_forward_aim (first : Keyframe) (points : list Keyframe)
    (tl : Timeline) (cam : CameraState) (t : Q) :
  strictly_increasing_from (scroll first) (scrolls points) = true ->
  scroll first == 0 ->
  timeline_inv first points tl (current cam) ->
  aimed_from cam = position (current cam) ->
  time tl <= clamp 0 (totalDuration (children tl)) t ->
  aimed_from (snd (seek t tl cam)) = position (current (snd (seek t tl cam))).
Proof.
  intros increasing starts_at_zero [Hcs [Hun [H0 [HD Hpose]]]] Haim Hfwd.
  unfold seek.
  set (t' := clamp 0 (totalDuration (children tl)) t) in *.
  destruct (clamp_bounds 0 _ t (totalDuration_nonneg (children tl))) as [Ht0 HtD].
  fold t' in Ht0, HtD.
  destruct (Qeq_bool (time tl) t'); [exact Haim|].
  apply Qle_bool_iff in Hfwd. rewrite Hfwd.
  destruct (render_forward_segment points first (children tl) cam t')
    as [cs' [cam' [E [_ [_ [_ Haim']]]]]].
  - exact increasing.
  - exact Hcs.
  - rewrite starts_at_zero. exact Ht0.
  - intros ->. exact Hpose.
  - intros p cs1 Ecs En.
    assert (Hp : time tl <= startTime (tween p)).
    { unfold uninitialised_from in Hun. rewrite Ecs in Hun.
      inversion Hun; subst. auto. }
    rewrite Ecs in Hcs.
    destruct (children_for_cons_inv _ _ _ _ Hcs)
      as [next [points' [l [cs2 [_ [_ [Etw _]]]]]]].
    rewrite Etw in Hp. simpl in Hp.
    assert (Ht : time tl == scroll first) by lra.
    destruct Hpose as [Hpos _]. rewrite Hpos.
    apply (segment_pose_at_start points first (time tl) increasing Ht).
  - rewrite E. simpl. apply Haim'. left. exact Haim.
Qed.

Lemma reachable_forward_reachable (path : list Keyframe) (w h : Q) (app : App) :
  reachable_forward path w h app -> reachable path w h app.
Proof.
  induction 1; [apply reach_setup|apply reach_scroll|apply reach_resize]; assumption.
Qed.

Lemma reachable_forward_inv (first : Keyframe) (points : list Keyframe)
    (w h : Q) (app : App) :
  strictly_increasing_from (scroll first) (scrolls points) = true ->
  scroll first == 0 ->
  reachable_forward (first :: points) w h app ->
  aimedFrom (camera app) = position (pose (camera app)) /\
  time (tl app) == scrollProgress app * totalDuration (children (tl app)) /\
  0 <= scrollProgress app /\ scrollProgress app <= 1.
Proof.
  intros Hinc H0. induction 1 as [|fraction app Hr IH Hle|w' h' app Hr IH].
  - split; [reflexivity|]. split; [simpl; ring|]. split; [apply Qle_refl|discriminate].
  - destruct IH as [Haim [Htime [Hp0 Hp1]]].
    assert (Hinv := reachable_inv first points Hinc H0 w h app
                      (reachable_forward_reachable _ _ _ _ Hr)).
    destruct (trigger_progress_bounds fraction) as [Hlo Hhi].
    assert (Hmono : scrollProgress app <= trigger_progress fraction).
    { rewrite <- (clamp_inside 0 1 (scrollProgress app) Hp0 Hp1).
      apply trigger_progress_monotone. exact Hle. }
    set (D := totalDuration (children (tl app))) in *.
    assert (HD : 0 <= D) by apply totalDuration_nonneg.
    assert (Hin0 : 0 <= trigger_progress fraction * D)
      by (apply Qmult_le_0_compat; assumption).
    assert (Hin1 : trigger_progress fraction * D <= D).
    { assert (K : trigger_progress fraction * D <= 1 * D)
        by (apply Qmult_le_compat_r; assumption).
      lra. }
    assert (Hfwd : time (tl app) <= clamp 0 D (trigger_progress fraction * D)).
    { rewrite (clamp_inside 0 D _ Hin0 Hin1), Htime.
      apply Qmult_le_compat_r; assumption. }
    assert (A := seek_forward_aim first points (tl app) (state (camera app))
                   (trigger_progress fraction * D) Hinc H0 Hinv Haim Hfwd).
    assert (T := seek_time (trigger_progress fraction * D) (tl app)
                   (state (camera app))).
    assert (U := seek_duration (trigger_progress fraction * D) (tl app)
                   (state (camera app))).
    unfold scroll_update, onUpdate, scrub.
    cbn [tl camera state scrollProgress currentRoom renderer aspect projectionAspect].
    fold D.
    destruct (seek (trigger_progress fraction * D) (tl app) (state (camera app)))
      as [tl' state'].
    cbn [tl camera state scrollProgress currentRoom renderer aspect projectionAspect
         fst snd aimedFrom pose] in *.
    split; [exact A|]. split; [|split; assumption].
    rewrite U, T. fold D. rewrite (clamp_inside 0 D _ Hin0 Hin1). reflexivity.
  - exact IH.
Qed.

Lemma vsub_compat (a a' b b' : Vec3) :
  a =v= a' -> b =v= b' -> vsub a b =v= vsub a' b'.
Proof.
  intros [A1 [A2 A3]] [B1 [B2 B3]]. unfold vsub.
  repeat split; cbn [x y z]; [rewrite A1, B1|rewrite A2, B2|rewrite A3, B3];
    reflexivity.
Qed.



(** ** The render loop and the teardown *)

Lemma mount_looping (path : list Keyframe) (w h : Q) : looping (mount path w h).
Proof. exists O. split; reflexivity. Qed.

Lemma run_frame_looping (m : Mounted) :
  looping m ->
  looping (run_frame m) /\ framesRendered (run_frame m) = S (framesRendered m) /\
  component (run_frame m) = component m.
Proof.
  intros [handle [Hr Hid]]. unfold run_frame. rewrite Hr. simpl.
  split; [|split; reflexivity].
  eexists. split; reflexivity.
Qed.

Lemma step_looping (e : Event) (m : Mounted) :
  is_unmount e = false -> looping m ->
  looping (step e m) /\
  framesRendered (step e m)
  = ((if is_frame e then 1 else 0) + framesRendered m)%nat.
Proof.
  intros He Hm. destruct e; try discriminate He; simpl.
  - destruct (run_frame_looping m Hm) as [H1 [H2 _]]. split; assumption.
  - destruct (resizeListener m); split; try reflexivity; exact Hm.
  - destruct (triggerAlive m); split; try reflexivity; exact Hm.
Qed.

Lemma cleanup_torn_down (m : Mounted) :
  looping m \/ torn_down m -> torn_down (cleanup m).
Proof.
  intros [[handle [Hr Hid]]|[Hr _]]; unfold torn_down, cleanup; simpl.
  - rewrite Hr, Hid. simpl. rewrite Nat.eqb_refl. repeat split; reflexivity.
  - rewrite Hr. destruct (animationId m); repeat split; reflexivity.
Qed.

Lemma step_torn_down (e : Event) (m : Mounted) :
  torn_down m ->
  torn_down (step e m) /\ framesRendered (step e m) = framesRendered m /\
  component (step e m) = component m.
Proof.
  intros Hm. assert (Hm' := Hm). destruct Hm' as [Hr [Hl [Ht Hd]]].
  destruct e; simpl.
  - unfold run_frame. rewrite Hr. simpl.
    split; [|split; reflexivity]. repeat split; assumption.
  - rewrite Hl. split; [exact Hm|split; reflexivity].
  - rewrite Ht. split; [exact Hm|split; reflexivity].
  - split; [apply cleanup_torn_down; right; exact Hm|split; reflexivity].
Qed.

Lemma run_app (events : list Event) :
  forall m e, run (events ++ [e]) m = step e (run events m).
Proof.
  intros m e. unfold run. rewrite fold_left_app. reflexivity.
Qed.

Lemma run_looping_or_torn_down (events : list Event) :
  forall m, looping m \/ torn_down m ->
            looping (run events m) \/ torn_down (run events m).
Proof.
  induction events as [|e events IH]; intros m Hm; [exact Hm|].
  apply IH. destruct e; try (right; apply cleanup_torn_down; exact Hm);
    (destruct Hm as [Hm|Hm];
     [left; apply step_looping; [reflexivity|exact Hm]
     |right; apply step_torn_down; exact Hm]).
Qed.

Lemma run_looping (events : list Event) :
  forall m, forallb (fun e => negb (is_unmount e)) events = true -> looping m ->
            looping (run events m) /\
            framesRendered (run events m)
            = (List.length (filter is_frame events) + framesRendered m)%nat.
Proof.
  induction events as [|e events IH]; intros m Hev Hm; [split; [exact Hm|reflexivity]|].
  simpl in Hev. apply andb_true_iff in Hev. destruct Hev as [He Hev].
  apply negb_true_iff in He.
  destruct (step_looping e m He Hm) as [Hl Hf].
  destruct (IH (step e m) Hev Hl) as [Hl' Hf'].
  split; [exact Hl'|].
  change (run (e :: events) m) with (run events (step e m)). rewrite Hf', Hf.
  simpl. destruct (is_frame e); simpl; lia.
Qed.

Lemma run_torn_down (events : list Event) :
  forall m, torn_down m ->
            torn_down (run events m) /\
            framesRendered (run events m) = framesRendered m /\
            component (run events m) = component m.
Proof.
  induction events as [|e events IH]; intros m Hm;
    [split; [exact Hm|split; reflexivity]|].
  destruct (step_torn_down e m Hm) as [Ht [Hf Hc]].
  destruct (IH (step e m) Ht) as [Ht' [Hf' Hc']].
  change (run (e :: events) m) with (run events (step e m)).
  split; [exact Ht'|]. split; congruence.
Qed.

(** X10. The render loop never has more than one frame requested, so the
    single handle kept in [animationId] is enough to stop it.  Until the
    component is unmounted, whatever frames, scrolls and resizes happen,
    one request is pending and [animationId] is its handle, and the scene
    has been drawn once at mount and once per frame.  From the unmount on,
    whatever events had come before it and whatever come after it, no frame
    is requested, nothing is drawn again, and neither a scroll nor a resize
    reaches the component's state any more. *)
Theorem X10_teardown_stops_the_loop (path : list Keyframe) (w h : Q)
    (before after : list Event) :
  (forallb (fun e => negb (is_unmount e)) before = true ->
   (exists handle,
       frameRequests (run before (mount path w h)) = [handle] /\
       animationId (run before (mount path w h)) = Some handle) /\
   framesRendered (run before (mount path w h))
   = S (List.length (filter is_frame before))) /\
  let unmounted := run (before ++ [Unmount]) (mount path w h) in
  let later := run after unmounted in
  frameRequests later = [] /\
  framesRendered later = framesRendered (run before (mount path w h)) /\
  component later = component (run before (mount path w h)) /\
  resizeListener later = false /\ triggerAlive later = false /\
  rendererDisposed later = true.
Proof.
  split.
  - intro Hev.
    destruct (run_looping before (mount path w h) Hev (mount_looping path w h))
      as [Hl Hf].
    split; [exact Hl|]. rewrite Hf. simpl. lia.
  - cbv zeta. rewrite run_app.
    assert (Hm := run_looping_or_torn_down before (mount path w h)
                    (or_introl (mount_looping path w h))).
    assert (Ht := cleanup_torn_down _ Hm).
    destruct (run_torn_down after _ Ht) as [[Hr [Hl [Htr Hd]]] [Hf Hc]].
    simpl step. repeat split; assumption.
Qed.

Lemma X10_teardown_stops_the_loop_witness :
  framesRendered
    (run [AnimationFrame; ScrollEvent 0.3; AnimationFrame]
       (mount CAMERA_PATH 1920 1080)) = 3%nat /\
  frameRequests
    (run [AnimationFrame; ScrollEvent 0.9]
       (run ([AnimationFrame; ScrollEvent 0.3; AnimationFrame] ++ [Unmount])
          (mount CAMERA_PATH 1920 1080))) = [].
Proof.
  destruct (X10_teardown_stops_the_loop CAMERA_PATH 1920 1080
              [AnimationFrame; ScrollEvent 0.3; AnimationFrame]
              [AnimationFrame; ScrollEvent 0.9]) as [Hbefore Hafter].
  split.
  - exact (proj2 (Hbefore eq_refl)).
  - exact (proj1 Hafter).
Defined.

(** ** Shadows *)

Lemma createPointLight_casts_no_shadow (color : Z) (intensity distance : Q)
    (p : Vec3) (n : nat) :
  castShadow_of (fst (Scene.createPointLight color intensity distance p n)) = false.
Proof. reflexivity. Qed.

(** X11. No light of the scene casts a shadow: the point lights the code
    creates, alone or inside a lamp, and the ambient light are all left
    with their shadow flag off, so although 31 meshes (the walls and the
    boxes) are marked as shadow casters and 36 as receivers, there is
    nothing for them to cast a shadow from.  Every shadow caster is a mesh
    that also receives. *)
Theorem X11_no_light_casts_shadow (n : nat) :
  (forall color intensity distance p,
      castShadow_of (fst (Scene.createPointLight color intensity distance p n))
      = false) /\
  (forall x y z,
      Forall (fun o => is_light o = true -> castShadow_of o = false)
        (nodes_of (fst (Scene.createLamp x y z n)))) /\
  let g := fst (Scene.buildScene n) in
  Forall (fun o => is_light o = true -> castShadow_of o = false) (nodes_of g) /\
  List.length (filter is_light (nodes_of g)) = 6%nat /\
  List.length (filter castShadow_of (nodes_of g)) = 31%nat /\
  List.length (filter receiveShadow_of (nodes_of g)) = 36%nat /\
  Forall (fun o => castShadow_of o = true ->
                   is_mesh o = true /\ receiveShadow_of o = true) (nodes_of g).
Proof.
  split; [intros; reflexivity|]. split.
  - intros x y z. apply Forall_forall. intros o Ho Hl.
    assert (H : forallb (fun o => implb (is_light o) (negb (castShadow_of o)))
                  (nodes_of (fst (Scene.createLamp x y z n))) = true)
      by reflexivity.
    rewrite forallb_forall in H. specialize (H o Ho).
    rewrite Hl in H. simpl in H. apply negb_true_iff. exact H.
  - cbv zeta. split; [|split; [reflexivity|split; [reflexivity|split; [reflexivity|]]]].
    + apply Forall_forall. intros o Ho Hl.
      assert (H : forallb (fun o => implb (is_light o) (negb (castShadow_of o)))
                    (nodes_of (fst (Scene.buildScene n))) = true)
        by reflexivity.
      rewrite forallb_forall in H. specialize (H o Ho).
      rewrite Hl in H. simpl in H. apply negb_true_iff. exact H.
    + apply Forall_forall. intros o Ho Hc.
      assert (H : forallb (fun o => implb (castShadow_of o)
                                      (is_mesh o && receiveShadow_of o))
                    (nodes_of (fst (Scene.buildScene n))) = true)
        by reflexivity.
      rewrite forallb_forall in H. specialize (H o Ho).
      rewrite Hc in H. simpl in H. apply andb_true_iff. exact H.
Qed.
